(** * image-search: the batch embedding pipeline and the similarity search

    A shallow embedding of [process.py] (batch loop and merge step),
    [search.py] (interactive query loop) and the parts of [utils.py] they
    use, with the properties of the specification stated over it.

    Conventions of the model.
    - Scalars.  The embeddings are numpy [float32] values: IEEE 754
      binary32 numbers, with signed zeros, infinities and NaN, as
      [SpecFloat] of the Standard Library has them.  Products and sums are
      rounded to nearest-even, and [<] and [==] are the IEEE comparisons
      (false as soon as one side is NaN).
    - Exceptions.  A Python call that may raise returns a [result].
    - Files.  A directory is a finite map from file names to contents; the
      features directory holds arrays ([np.save]/[np.load]) and one-column
      tables ([to_csv]/[read_csv], column [photo_id]), and it may hold a
      file that a failed write left behind.
    - [sorted] is CPython's [list.sort]; the other library calls ([glob],
      [np.concatenate], [pd.concat], [input], [print]) are modelled by
      their documented behaviour. *)

From Stdlib Require Import ZArith SpecFloat.
From Stdlib Require Import Ascii DecimalString DecimalNat DecimalFacts.
From Stdlib Require Import OrdersEx.
From stdpp Require Import gmap strings list fin_maps sorting.

(** ** Exceptions *)

Inductive exn :=
  | ValueError | IndexError | EOFError | ZeroDivisionError
  | OSError | FileNotFoundError | RuntimeError.

Inductive result (A : Type) :=
  | Ok (a : A)
  | Raise (e : exn).
Arguments Ok {A} a.
Arguments Raise {A} e.

(** ** [sorted(iterable, key=..., reverse=...)]

    Python's [sorted] copies the iterable into a list and calls
    [list.sort], which compares keys with [<] only.  With [reverse=True]
    CPython reverses the list, sorts it ascending and reverses the outcome.

    The ascending sort is CPython's, as [listobject.c] has it for a list of
    fewer than 64 elements: [count_run] finds the run the list starts
    with (a strictly descending run is reversed in place), and
    [binarysort] puts the other elements into it one by one, each at the
    place a binary search gives.  A longer list is cut into such runs,
    which are then merged; when [<] is the strict part of a total preorder
    on the keys of the list, every one of these procedures returns the
    same list, the stably sorted one ([sorted_stable_sorted] below).  When
    it is not (a NaN among float keys), the outcome depends on the
    comparisons made: the model is then CPython's outcome for lists of
    fewer than 64 elements, and nothing is stated about longer ones beyond
    what holds of every rearrangement. *)

Section PySorted.
Context {A K : Type} (ltb : K → K → bool) (key : A → K).

(** [count_run]: how many elements after [prev] go on the run. *)
Fixpoint run_ascending (prev : A) (l : list A) : nat :=
  match l with
  | x :: l' => if ltb (key x) (key prev) then 0 else S (run_ascending x l')
  | [] => 0
  end.

Fixpoint run_descending (prev : A) (l : list A) : nat :=
  match l with
  | x :: l' => if ltb (key x) (key prev) then S (run_descending x l') else 0
  | [] => 0
  end.

(** The length of the first run and whether it is descending. *)
Definition count_run (l : list A) : nat * bool :=
  match l with
  | [] => (0, false)
  | [x] => (1, false)
  | x :: y :: l' =>
      if ltb (key y) (key x) then (2 + run_descending y l', true)
      else (2 + run_ascending y l', false)
  end.

(** The binary search of [binarysort] for the place of [pivot] among
    [a[l:r]]: [p = l + ((r - l) >> 1)], then [r = p] if [pivot < a[p]] and
    [l = p + 1] otherwise, until [l = r].  [fuel] bounds the number of
    steps; the length of [a] is enough. *)
Fixpoint bisect (fuel : nat) (pivot : A) (a : list A) (l r : nat) : nat :=
  match fuel with
  | 0 => l
  | S fuel' =>
      if r <=? l then l
      else
        let p := l + (r - l) / 2 in
        match a !! p with
        | Some y =>
            if ltb (key pivot) (key y) then bisect fuel' pivot a l p
            else bisect fuel' pivot a (S p) r
        | None => l
        end
  end.

Definition binary_insert (a : list A) (pivot : A) : list A :=
  let pos := bisect (length a) pivot a 0 (length a) in
  take pos a ++ pivot :: drop pos a.

Definition binarysort (run rest : list A) : list A :=
  foldl binary_insert run rest.

Definition list_sort (l : list A) : list A :=
  let '(n, descending) := count_run l in
  binarysort (if descending then rev (take n l) else take n l) (drop n l).

Definition sorted (reverse : bool) (l : list A) : list A :=
  if reverse then rev (list_sort (rev l)) else list_sort l.

(** The stable sort, for reference: insertion sort, each element in front
    of the first element whose key is not smaller. *)
Fixpoint insert_sorted (x : A) (l : list A) : list A :=
  match l with
  | [] => [x]
  | y :: l' =>
      if ltb (key y) (key x) then y :: insert_sorted x l' else x :: y :: l'
  end.

Definition sort_stable (l : list A) : list A := foldr insert_sorted [] l.

Definition stable_sorted (reverse : bool) (l : list A) : list A :=
  if reverse then rev (sort_stable (rev l)) else sort_stable l.

(** Insertion behind the last element whose key is not greater: what the
    binary search amounts to on a sorted list. *)
Fixpoint insert_behind (x : A) (l : list A) : list A :=
  match l with
  | [] => [x]
  | y :: l' =>
      if ltb (key x) (key y) then x :: y :: l' else y :: insert_behind x l'
  end.
End PySorted.

(** ** Scalars: numpy [float32]

    A [float32] is an IEEE 754 binary32 value ([prec = 24], [emax = 128]):
    a signed zero, a signed infinity, NaN, or [(-1)^s * m * 2^e] with [m]
    of at most 24 bits.  The operations round to nearest, ties to even;
    [f32_ltb] and [f32_eqb] are numpy's [<] and [==], false as soon as one
    side is NaN. *)

Definition float32 : Type := spec_float.

(** The [float32] nearest to [m * 2^e], and the one nearest to [n]. *)
Definition f32_of (m e : Z) : float32 := binary_normalize 24 128 m e false.
Definition f32 (n : Z) : float32 := f32_of n 0.

Definition f32_mul : float32 → float32 → float32 := SFmul 24 128.
Definition f32_add : float32 → float32 → float32 := SFadd 24 128.
Definition f32_div : float32 → float32 → float32 := SFdiv 24 128.
Definition f32_ltb : float32 → float32 → bool := SFltb.
Definition f32_eqb : float32 → float32 → bool := SFeqb.

Definition nan : float32 := S754_nan.
Definition is_nan (x : float32) : bool :=
  match x with S754_nan => true | _ => false end.

(** ** Arrays and similarity ([search.py], lines 16-17) *)

(** A two-dimensional numpy array of shape [(length rows, ncols)]. *)
Record ndarray := { ncols : nat; rows : list (list float32) }.

Definition shape0 (a : ndarray) : nat := length (rows a).

(** One entry of the matrix product: the products of the components,
    each rounded, added up one after the other, each sum rounded.  (numpy
    leaves the order of the additions to its BLAS; the statements below
    take the similarities as they are computed, and the examples use
    vectors on which every order gives the same values.) *)
Fixpoint dot_from (acc : float32) (u v : list float32) : float32 :=
  match u, v with
  | x :: u', y :: v' => dot_from (f32_add acc (f32_mul x y)) u' v'
  | _, _ => acc
  end.

Definition dot (u v : list float32) : float32 := dot_from (f32 0) u v.

(** [list((text_features @ photo_features.T).squeeze(0))], where
    [text_features] has shape [(1, D)] and is given by its only row. *)
Definition similarities (text_features : list float32)
    (photo_features : ndarray) : result (list float32) :=
  if decide (length text_features = ncols photo_features)
  then Ok (map (dot text_features) (rows photo_features))
  else Raise ValueError.

(** [sorted(zip(similarities, range(photo_features.shape[0])),
            key=lambda x: x[0], reverse=True)] *)
Definition best_photos (sims : list float32) (n : nat)
  : list (float32 * nat) :=
  sorted f32_ltb fst true (zip sims (seq 0 n)).

(** The ranking: the row indices of [best_photos], best first. *)
Definition ranking (text_features : list float32) (photo_features : ndarray)
  : result (list nat) :=
  match similarities text_features photo_features with
  | Ok sims => Ok (map snd (best_photos sims (shape0 photo_features)))
  | Raise e => Raise e
  end.


(** ** The interactive session ([search.py]) *)

(** What the two programs do that can be observed from outside, in order:
    the lines they print, the prompts, and the calls of the image encoder. *)
Inductive event :=
  | PhotosFound (n : nat)      (* print(f"Photos found: {len(photo_ids)}") *)
  | Print (line : string)      (* print(line) *)
  | Prompt                     (* the "> " of input("> ") *)
  | ProcessingBatch (k batches : nat)
                               (* print(f"Processing batch {i+1}/{batches}") *)
  | ProblemWithBatch (i : nat) (* print(f'Problem with batch {i}') *)
  | Encode (i : nat) (photos_batch : list string).
                               (* compute_image_features is called for
                                  batch i *)

(** How the session ends: the loop is left on an empty line, or an
    exception reaches the top level. *)
Inductive ending := Exit | Uncaught (e : exn).

(** Configuration and collaborators of [search.py]: the text encoder and
    [display_num] (a count; [range] of a negative number is empty, as
    [range(0)] is). *)
Record search_env := {
  compute_text_feature : string → result (list float32);
  display_num : nat
}.

Record index := { photo_features : ndarray; photo_ids : list string }.

(** [for i in range(display_num): ...] over the remaining values of [i]. *)
Fixpoint print_results (best : list (float32 * nat)) (ids : list string)
    (range : list nat) : list event * result unit :=
  match range with
  | [] => ([], Ok tt)
  | i :: range' =>
      match best !! i with
      | None => ([], Raise IndexError)              (* best_photos[i] *)
      | Some (_, idx) =>
          match ids !! idx with
          | None => ([], Raise IndexError)          (* photo_ids[idx] *)
          | Some photo_id =>
              let '(out, r) := print_results best ids range' in
              (Print photo_id :: out, r)
          end
      end
  end.

(** The body of the [while] loop up to the next [input]. *)
Definition query (E : search_env) (ix : index) (search_query : string)
  : list event * result unit :=
  match compute_text_feature E search_query with
  | Raise e => ([], Raise e)
  | Ok text_features =>
      match similarities text_features (photo_features ix) with
      | Raise e => ([], Raise e)
      | Ok sims =>
          print_results (best_photos sims (shape0 (photo_features ix)))
            (photo_ids ix) (seq 0 (display_num E))
      end
  end.

(** [search_query = input("> "); while search_query: ...] on the lines
    still to come on standard input; at end of input [input] raises. *)
Fixpoint query_loop (E : search_env) (ix : index) (stdin : list string)
  : list event * ending :=
  match stdin with
  | [] => ([Prompt], Uncaught EOFError)
  | search_query :: stdin' =>
      if decide (search_query = "") then ([Prompt], Exit)
      else
        match query E ix search_query with
        | (out, Raise e) => (Prompt :: out, Uncaught e)
        | (out, Ok _) =>
            let '(tr, fin) := query_loop E ix stdin' in
            (Prompt :: out ++ tr, fin)
        end
  end.

(** The session on an index that was loaded. *)
Definition session (E : search_env) (ix : index) (stdin : list string)
  : list event * ending :=
  let '(tr, fin) := query_loop E ix stdin in
  (PhotosFound (length (photo_ids ix)) :: Print "press Enter to quit" :: tr,
   fin).

(** ** Files and the features directory *)

Inductive content :=
  | Array (a : ndarray)               (* written by np.save *)
  | Table (photo_id : list string)    (* written by to_csv, one column *)
  | Truncated.                        (* created by a write that failed
                                         before the end: not loadable *)

(** [fnmatch]-style matching of a file name against a pattern: [*] is any
    run of characters, [?] any one character, everything else stands for
    itself.  Matching is case sensitive.  Character classes ([[...]]),
    the recursive [**] and the patterns that [glob] refuses (the empty
    one, an absolute one) are not modelled: the patterns of [ext_list]
    are taken to be made of [*], [?] and plain characters. *)
Fixpoint fnmatch (pattern : string) : string → bool :=
  match pattern with
  | EmptyString => λ name,
      match name with EmptyString => true | String _ _ => false end
  | String c pattern' =>
      if Ascii.eqb c "*"%char then
        fix star (name : string) : bool :=
          fnmatch pattern' name ||
          match name with
          | EmptyString => false
          | String _ name' => star name'
          end
      else if Ascii.eqb c "?"%char then λ name,
        match name with
        | EmptyString => false
        | String _ name' => fnmatch pattern' name'
        end
      else λ name,
        match name with
        | EmptyString => false
        | String d name' => Ascii.eqb c d && fnmatch pattern' name'
        end
  end.

(** [f"{i:010d}"]: decimal, padded with zeros on the left to ten digits. *)
Definition decimal (n : nat) : string := NilZero.string_of_uint (Nat.to_uint n).

Fixpoint zeros (n : nat) : string :=
  match n with
  | 0 => EmptyString
  | S n' => String "0"%char (zeros n')
  end.

Definition fmt_010d (i : nat) : string :=
  zeros (10 - String.length (decimal i)) +:+ decimal i.

Definition batch_ids_path (i : nat) : string := fmt_010d i +:+ ".csv".
Definition batch_features_path (i : nat) : string := fmt_010d i +:+ ".npy".

(** Reading a run of decimal digits back, to tell file names apart. *)
Definition read_decimal (s : string) : option nat :=
  Nat.of_uint <$> NilEmpty.uint_of_string s.

(** [np.concatenate]: at least one array, all of one width. *)
Definition np_concatenate (arrays : list ndarray) : result ndarray :=
  match arrays with
  | [] => Raise ValueError
  | a :: rest =>
      if forallb (λ b, ncols b =? ncols a) rest
      then Ok {| ncols := ncols a; rows := concat (map rows arrays) |}
      else Raise ValueError
  end.

(** [pd.concat] of one-column frames: at least one frame. *)
Definition pd_concat (frames : list (list string)) : result (list string) :=
  match frames with
  | [] => Raise ValueError
  | _ :: _ => Ok (concat frames)
  end.

(** [[f(x) for x in l]] where [f] may raise: the first failure wins. *)
Fixpoint traverse {A B} (f : A → result B) (l : list A) : result (list B) :=
  match l with
  | [] => Ok []
  | x :: l' =>
      match f x with
      | Raise e => Raise e
      | Ok y =>
          match traverse f l' with
          | Raise e => Raise e
          | Ok ys => Ok (y :: ys)
          end
      end
  end.

(** ** The state of a run and its monad ([process.py]) *)

(** The features directory and what was observed so far. *)
Record world := { fs : gmap string content; trace : list event }.

(** A statement of the script: it changes the world and either yields a
    value or raises; what was written before a failure stays written. *)
Definition M (A : Type) : Type := world → world * result A.

#[global] Instance M_ret : MRet M := λ A a w, (w, Ok a).
#[global] Instance M_bind : MBind M := λ A B k m w,
  match m w with
  | (w', Ok a) => k a w'
  | (w', Raise e) => (w', Raise e)
  end.

Definition lift {A} (r : result A) : M A := λ w, (w, r).

(** [try: body except: handler] with a bare [except]. *)
Definition try_except (body handler : M unit) : M unit := λ w,
  match body w with
  | (w', Ok a) => (w', Ok a)
  | (w', Raise _) => handler w'
  end.

Fixpoint for_each {A} (l : list A) (body : A → M unit) : M unit :=
  match l with
  | [] => mret tt
  | x :: l' => body x ;; for_each l' body
  end.

Fixpoint load_all {A} (load : string → M A) (l : list string) : M (list A) :=
  match l with
  | [] => mret []
  | p :: l' => x ← load p; xs ← load_all load l'; mret (x :: xs)
  end.

Definition emit (e : event) : M unit := λ w,
  ({| fs := fs w; trace := trace w ++ [e] |}, Ok tt).

Definition path_exists (p : string) : M bool := λ w,
  (w, Ok (bool_decide (is_Some (fs w !! p)))).

(** [features_path.glob(pattern)]: the file names of the directory that
    match [pattern], in the order the directory yields them. *)
Definition matching (pattern : string) (d : gmap string content)
  : list string :=
  List.filter (fnmatch pattern) (map fst (map_to_list d)).

Definition glob (pattern : string) : M (list string) := λ w,
  (w, Ok (matching pattern (fs w))).

(** [np.load] and [pd.read_csv]: a file of the other kind, or one that
    was cut short, does not parse ([ValueError] stands for the error of the
    parser). *)
Definition read_array (d : gmap string content) (p : string) : result ndarray :=
  match d !! p with
  | Some (Array a) => Ok a
  | Some _ => Raise ValueError
  | None => Raise FileNotFoundError
  end.

Definition read_table (d : gmap string content) (p : string)
  : result (list string) :=
  match d !! p with
  | Some (Table ids) => Ok ids
  | Some _ => Raise ValueError
  | None => Raise FileNotFoundError
  end.

Definition np_load (p : string) : M ndarray := λ w, (w, read_array (fs w) p).
Definition read_csv (p : string) : M (list string) := λ w,
  (w, read_table (fs w) p).

(** Configuration ([config.yaml]) and collaborators of [process.py]:
    the photos directory as the list of its entries, the patterns, the
    batch size (a count; zero makes line 13 divide by zero), the encoder,
    path resolution, which file of the features directory cannot be
    written, and what a failed write leaves at its path.  [np.save] and
    [to_csv] open the file and then write to it: when the failure is in
    the opening nothing is left ([None]); when it comes later the file is
    there, cut short: not loadable ([Truncated]), or a table with fewer
    lines.  [leftover] may be any of these. *)
Record process_env := {
  photos_dir : list string;
  ext_list : list string;
  batch_size : nat;
  compute_image_features : list string → result ndarray;
  resolve : string → result string;
  write_fails : string → bool;
  leftover : string → content → option content
}.

Section Process.
Context (E : process_env).

(** The directory after a failed write of [c] to [p]. *)
Definition failed_write (p : string) (c : content) (d : gmap string content)
  : gmap string content :=
  match leftover E p c with
  | Some c' => <[p:=c']> d
  | None => d
  end.

Definition write (p : string) (c : content) : M unit := λ w,
  if write_fails E p
  then ({| fs := failed_write p c (fs w); trace := trace w |}, Raise OSError)
  else ({| fs := <[p:=c]> (fs w); trace := trace w |}, Ok tt).

Definition np_save (p : string) (a : ndarray) : M unit := write p (Array a).
Definition to_csv (p : string) (ids : list string) : M unit :=
  write p (Table ids).

(** Line 9: [[item for e in ext_list for item in photos_path.glob(e)]]. *)
Definition photos_files : list string :=
  flat_map (λ e, List.filter (fnmatch e) (photos_dir E)) (ext_list E).

(** Line 13: [math.ceil(len(photos_files) / batch_size)]. *)
Definition batches : result nat :=
  if batch_size E =? 0 then Raise ZeroDivisionError
  else Ok ((length photos_files + batch_size E - 1) / batch_size E).

(** Line 24: [photos_files[i*batch_size : (i+1)*batch_size]]. *)
Definition batch_files (i : nat) : list string :=
  take (batch_size E) (drop (i * batch_size E) photos_files).

(** Lines 24-31: the body of the [try]. *)
Definition batch_try (i : nat) : M unit :=
  emit (Encode i (batch_files i)) ;;
  batch_features ← lift (compute_image_features E (batch_files i));
  np_save (batch_features_path i) batch_features ;;
  photo_ids ← lift (traverse (resolve E) (batch_files i));
  to_csv (batch_ids_path i) photo_ids.

(** Lines 17-33: the body of the batch loop. *)
Definition process_batch (nb i : nat) : M unit :=
  emit (ProcessingBatch (i + 1) nb) ;;
  present ← path_exists (batch_features_path i);
  if (present : bool) then mret tt
  else try_except (batch_try i) (emit (ProblemWithBatch i)).

(** Lines 37-45: the merge step. *)
Definition merge : M unit :=
  npys ← glob "*.npy";
  features_list ← load_all np_load (sorted String.ltb id false npys);
  features ← lift (np_concatenate features_list);
  np_save "features.npy" features ;;
  csvs ← glob "*.csv";
  frames ← load_all read_csv (sorted String.ltb id false csvs);
  photo_ids ← lift (pd_concat frames);
  to_csv "photo_ids.csv" photo_ids.

Definition batch_loop (nb : nat) : M unit :=
  for_each (seq 0 nb) (process_batch nb).

(** The whole of [process.py]. *)
Definition process : M unit :=
  emit (PhotosFound (length photos_files)) ;;
  nb ← lift batches;
  batch_loop nb ;;
  merge.
End Process.

(** [search.py] from its start: load the consolidated index, then serve. *)
Definition load_index : M index :=
  features ← np_load "features.npy";
  ids ← read_csv "photo_ids.csv";
  mret {| photo_features := features; photo_ids := ids |}.

Definition search (E : search_env) (d : gmap string content)
    (stdin : list string) : list event * ending :=
  match load_index {| fs := d; trace := [] |} with
  | (_, Raise e) => ([], Uncaught e)
  | (_, Ok ix) => session E ix stdin
  end.

(** ** Notions the properties are stated with *)

(** [x] occurs in [l] at an earlier position than [y]. *)
Definition before {A} (x y : A) (l : list A) : Prop :=
  ∃ i j, i < j ∧ l !! i = Some x ∧ l !! j = Some y.

(** The answers to a run of queries: a prompt and the printed lines for
    each. *)
Definition answers (E : search_env) (ix : index) (qs : list string)
  : list event :=
  concat (map (λ q, Prompt :: (query E ix q).1) qs).

(** [x] is not after [y] in the order of the keys. *)
Definition key_le {A K} (ltb : K → K → bool) (key : A → K) (x y : A) : Prop :=
  ltb (key y) (key x) = false.

(** The order of file names: [s] is not after [t]. *)
Definition name_le : relation string := key_le String.ltb id.

(** [f] keeps the outcome of the comparisons between the keys of the
    elements of [l]. *)
Definition keys_agree_on {A B K1 K2} (ltb1 : K1 → K1 → bool)
    (ltb2 : K2 → K2 → bool) (key1 : A → K1) (key2 : B → K2) (f : A → B)
    (l : list A) : Prop :=
  ∀ x y, x ∈ l → y ∈ l →
         ltb2 (key2 (f x)) (key2 (f y)) = ltb1 (key1 x) (key1 y).

(** [f32_ltb] made total: NaN in front of the numbers.  On numbers it is
    [f32_ltb]. *)
Definition nan_first_ltb (x y : float32) : bool :=
  match x, y with
  | S754_nan, S754_nan => false
  | S754_nan, _ => true
  | _, S754_nan => false
  | _, _ => f32_ltb x y
  end.

(** No similarity of the query [q] to a row of [M] is NaN. *)
Definition no_nan (q : list float32) (M : ndarray) : Prop :=
  ∀ v, v ∈ rows M → is_nan (dot q v) = false.

(** [sorted(features_path.glob(pattern))], and what the merge step loads
    through it. *)
Definition listing (pattern : string) (d : gmap string content)
  : list string :=
  sorted String.ltb id false (matching pattern d).

Definition arrays_in (d : gmap string content) : result (list ndarray) :=
  traverse (read_array d) (listing "*.npy" d).

Definition tables_in (d : gmap string content)
  : result (list (list string)) :=
  traverse (read_table d) (listing "*.csv" d).

(** Running a program of the pipeline on a directory, nothing observed
    before. *)
Definition run_on {A} (m : M A) (d : gmap string content) : world * result A :=
  m {| fs := d; trace := [] |}.

(** A features directory that holds batch artifacts and nothing else. *)
Definition only_batches (d : gmap string content) : Prop :=
  ∀ p, is_Some (d !! p) →
       ∃ i, p = batch_features_path i ∨ p = batch_ids_path i.

(** What a run keeps about batch [i] once its feature artifact exists. *)
Definition batch_kept (i : nat) (npy csv : option content) (w : world) : Prop :=
  fs w !! batch_features_path i = npy ∧
  fs w !! batch_ids_path i = csv ∧
  ∀ files, Encode i files ∉ trace w.

(** ** Example inputs *)

(** A corpus of four photos in two dimensions. *)
Definition four_photos : index :=
  {| photo_features :=
       {| ncols := 2;
          rows := [[f32 1; f32 0]; [f32 0; f32 1];
                   [f32_div (f32 7) (f32 10); f32_div (f32 7) (f32 10)];
                   [f32_of 1 (-1); f32 0]] |};
     photo_ids := ["/p/a.jpg"; "/p/b.jpg"; "/p/c.jpg"; "/p/d.jpg"] |}.

(** An encoder that fails on the query ["bad"], and a session that asks
    for [K] results. *)
Definition text_encoder (text : string) : result (list float32) :=
  if decide (text = "bad") then Raise RuntimeError
  else if decide (text = "cat") then Ok [f32 1; f32 0]
  else Ok [f32 0; f32 1].

Definition asking_for (K : nat) : search_env :=
  {| compute_text_feature := text_encoder; display_num := K |}.

(** An image encoder that fails on a batch holding ["broken.jpg"], and a
    pipeline over the photos [photos] in which the files [unwritable] of
    the features directory cannot be written. *)
Definition image_encoder (photos_batch : list string) : result ndarray :=
  if bool_decide ("broken.jpg" ∈ photos_batch) then Raise OSError
  else Ok {| ncols := 2; rows := map (λ _, [f32 1; f32 0]) photos_batch |}.

Definition pipeline (photos exts : list string) (size : nat)
    (unwritable : list string) : process_env :=
  {| photos_dir := photos;
     ext_list := exts;
     batch_size := size;
     compute_image_features := image_encoder;
     resolve := λ p, Ok ("/photos/" +:+ p);
     write_fails := λ p, bool_decide (p ∈ unwritable);
     leftover := λ _ _, None |}.

(** The same pipeline on a disk where the files [unwritable] are created
    and the write fails before its end. *)
Definition pipeline_cut_short (photos exts : list string) (size : nat)
    (unwritable : list string) : process_env :=
  {| photos_dir := photos;
     ext_list := exts;
     batch_size := size;
     compute_image_features := image_encoder;
     resolve := λ p, Ok ("/photos/" +:+ p);
     write_fails := λ p, bool_decide (p ∈ unwritable);
     leftover := λ _ _, Some Truncated |}.


(** ** Further notions *)

(** A pattern without [*]. *)
Fixpoint no_star (pattern : string) : bool :=
  match pattern with
  | EmptyString => true
  | String c pattern' => negb (Ascii.eqb c "*"%char) && no_star pattern'
  end.

(** What the encoder and the path resolution give for batch [i]: whether
    the encoder returns, the array it returns, its rows, and the
    identifiers. *)
Definition batch_ok (E : process_env) (i : nat) : bool :=
  match compute_image_features E (batch_files E i) with
  | Ok _ => true
  | Raise _ => false
  end.

Definition batch_array (E : process_env) (i : nat) : ndarray :=
  match compute_image_features E (batch_files E i) with
  | Ok a => a
  | Raise _ => {| ncols := 0; rows := [] |}
  end.

Definition batch_ids (E : process_env) (i : nat) : list string :=
  match traverse (resolve E) (batch_files E i) with
  | Ok ids => ids
  | Raise _ => []
  end.

(** The batches of a run of [nb] batches for which the encoder returns. *)
Definition encoded (E : process_env) (nb : nat) : list nat :=
  List.filter (batch_ok E) (seq 0 nb).

(** The features directory after the first [k] batches of a run that
    started on an empty directory, with nothing failing but the encoder. *)
Definition after_batches (E : process_env) (k : nat)
    (d : gmap string content) : Prop :=
  (∀ i, d !! batch_features_path i =
        if decide (i < k ∧ batch_ok E i = true)
        then Some (Array (batch_array E i)) else None) ∧
  (∀ i, d !! batch_ids_path i =
        if decide (i < k ∧ batch_ok E i = true)
        then Some (Table (batch_ids E i)) else None) ∧
  only_batches d.

(** The calls of the image encoder that a trace records, in order. *)
Definition encoder_calls (tr : list event) : list (nat * list string) :=
  omap (λ e, match e with Encode i files => Some (i, files) | _ => None end) tr.


(** * Properties *)

(** ** The sort *)

Lemma before_sublist {A} (x y : A) l : before x y l ↔ [x; y] `sublist_of` l.
Proof.
  split.
  - intros (i & j & Hij & Hi & Hj).
    rewrite <- (take_drop_middle l i x Hi).
    apply sublist_inserts_l, sublist_skip, singleton_sublist_l.
    apply list_elem_of_lookup. exists (j - S i).
    rewrite lookup_drop. replace (S i + (j - S i)) with j by lia. done.
  - induction l as [|z l IH]; intros H.
    + inversion H.
    + apply sublist_cons_r in H as [H | (l' & Heq & H)].
      * destruct (IH H) as (i & j & Hij & Hi & Hj).
        exists (S i), (S j). repeat split; [lia | done | done].
      * injection Heq as -> <-.
        apply singleton_sublist_l, list_elem_of_lookup in H as [j Hj].
        exists 0, (S j). repeat split; [lia | done].
Qed.

Lemma sublist_rev {A} (l1 l2 : list A) :
  l1 `sublist_of` l2 → rev l1 `sublist_of` rev l2.
Proof.
  induction 1 as [|x l1 l2 _ IH|x l1 l2 _ IH]; simpl.
  - constructor.
  - by apply sublist_app.
  - by apply sublist_inserts_r.
Qed.

Lemma elem_of_rev {A} (x : A) l : x ∈ rev l ↔ x ∈ l.
Proof. by rewrite <- Permutation_rev. Qed.

Section ListSortFacts.
Context {A K : Type} (ltb : K → K → bool) (key : A → K).

Lemma binary_insert_Permutation a x : binary_insert ltb key a x ≡ₚ x :: a.
Proof.
  unfold binary_insert. symmetry. apply Permutation_cons_app.
  by rewrite take_drop.
Qed.

Lemma binarysort_Permutation rest : ∀ run,
  binarysort ltb key run rest ≡ₚ run ++ rest.
Proof.
  unfold binarysort. induction rest as [|x rest IH]; intros run; simpl.
  - rewrite app_nil_r. reflexivity.
  - rewrite IH, binary_insert_Permutation. apply Permutation_middle.
Qed.

Lemma list_sort_Permutation l : list_sort ltb key l ≡ₚ l.
Proof.
  unfold list_sort. destruct (count_run ltb key l) as [n descending].
  rewrite binarysort_Permutation.
  transitivity (take n l ++ drop n l); [|by rewrite take_drop].
  destruct descending; [|done]. by rewrite <- Permutation_rev.
Qed.

Lemma sorted_Permutation reverse l : sorted ltb key reverse l ≡ₚ l.
Proof.
  destruct reverse; simpl; [|apply list_sort_Permutation].
  rewrite <- Permutation_rev, list_sort_Permutation.
  symmetry. apply Permutation_rev.
Qed.
End ListSortFacts.

(** The sort looks at its elements through the comparisons of keys only. *)
Section ListSortMap.
Context {A B K1 K2 : Type} (ltb1 : K1 → K1 → bool) (ltb2 : K2 → K2 → bool).
Context (key1 : A → K1) (key2 : B → K2) (f : A → B).

Local Notation "'agree_on' l" := (keys_agree_on ltb1 ltb2 key1 key2 f l)
  (at level 10, l at level 9).

Lemma run_ascending_fmap l : ∀ prev,
  agree_on (prev :: l) →
  run_ascending ltb2 key2 (f prev) (map f l) = run_ascending ltb1 key1 prev l.
Proof.
  induction l as [|x l IH]; intros prev H; simpl; [done|].
  rewrite H by (rewrite !elem_of_cons; auto).
  destruct (ltb1 (key1 x) (key1 prev)); [done|]. f_equal. apply IH.
  intros a b Ha Hb. apply H; by right.
Qed.

Lemma run_descending_fmap l : ∀ prev,
  agree_on (prev :: l) →
  run_descending ltb2 key2 (f prev) (map f l) = run_descending ltb1 key1 prev l.
Proof.
  induction l as [|x l IH]; intros prev H; simpl; [done|].
  rewrite H by (rewrite !elem_of_cons; auto).
  destruct (ltb1 (key1 x) (key1 prev)); [|done]. f_equal. apply IH.
  intros a b Ha Hb. apply H; by right.
Qed.

Lemma count_run_fmap l :
  agree_on l → count_run ltb2 key2 (map f l) = count_run ltb1 key1 l.
Proof.
  intros H. destruct l as [|x [|y l]]; simpl; [done|done|].
  rewrite H by (rewrite !elem_of_cons; auto).
  assert (agree_on (y :: l)) as H'
    by (intros a b Ha Hb; apply H; by right).
  rewrite (run_descending_fmap l y H'), (run_ascending_fmap l y H'). done.
Qed.

Lemma bisect_fmap fuel x a : ∀ l r,
  agree_on (x :: a) →
  bisect ltb2 key2 fuel (f x) (map f a) l r = bisect ltb1 key1 fuel x a l r.
Proof.
  induction fuel as [|fuel IH]; intros l r H; cbn [bisect]; [done|].
  destruct (r <=? l); [done|].
  change (map f a) with (f <$> a). rewrite list_lookup_fmap.
  destruct (a !! (l + (r - l) / 2)) as [y|] eqn:Hy; cbn [fmap option_fmap option_map]; [|done].
  rewrite H; [|by left|right; by eapply list_elem_of_lookup_2].
  change (f <$> a) with (map f a). rewrite !IH by done. done.
Qed.

Lemma binary_insert_fmap a x :
  agree_on (x :: a) →
  binary_insert ltb2 key2 (map f a) (f x) = map f (binary_insert ltb1 key1 a x).
Proof.
  intros H. unfold binary_insert. rewrite length_map, bisect_fmap by done.
  change (map f ?l) with (f <$> l).
  by rewrite fmap_app, fmap_cons, fmap_take, fmap_drop.
Qed.

Lemma binarysort_fmap rest : ∀ run,
  agree_on (run ++ rest) →
  binarysort ltb2 key2 (map f run) (map f rest) =
  map f (binarysort ltb1 key1 run rest).
Proof.
  unfold binarysort. induction rest as [|x rest IH]; intros run H; simpl; [done|].
  rewrite binary_insert_fmap.
  - apply IH. intros a b Ha Hb.
    apply H; rewrite elem_of_app, elem_of_cons;
      [clear Hb; rename Ha into Hc|clear Ha; rename Hb into Hc];
      apply elem_of_app in Hc as [Hc|Hc]; auto;
      rewrite binary_insert_Permutation in Hc;
      apply elem_of_cons in Hc as [->|Hc]; auto.
  - intros a b Ha Hb. apply H; rewrite elem_of_app, elem_of_cons;
      [clear Hb; rename Ha into Hc|clear Ha; rename Hb into Hc];
      apply elem_of_cons in Hc as [->|Hc]; auto.
Qed.

Lemma list_sort_fmap l :
  agree_on l →
  list_sort ltb2 key2 (map f l) = map f (list_sort ltb1 key1 l).
Proof.
  intros H. unfold list_sort. rewrite count_run_fmap by done.
  destruct (count_run ltb1 key1 l) as [n descending].
  change (map f l) with (f <$> l). rewrite <- fmap_take, <- fmap_drop.
  change (f <$> ?x) with (map f x).
  destruct descending.
  - rewrite <- map_rev. apply binarysort_fmap.
    intros a b Ha Hb. apply H.
    + rewrite <- (take_drop n l). revert Ha. rewrite !elem_of_app, elem_of_rev. done.
    + rewrite <- (take_drop n l). revert Hb. rewrite !elem_of_app, elem_of_rev. done.
  - apply binarysort_fmap. by rewrite take_drop.
Qed.

Lemma sorted_fmap_on reverse l :
  agree_on l →
  sorted ltb2 key2 reverse (map f l) = map f (sorted ltb1 key1 reverse l).
Proof.
  intros H. destruct reverse; simpl; [|by apply list_sort_fmap].
  rewrite <- map_rev, list_sort_fmap, map_rev; [done|].
  intros a b Ha Hb. apply H; by apply elem_of_rev.
Qed.

Lemma sorted_fmap reverse l :
  (∀ x y, ltb2 (key2 (f x)) (key2 (f y)) = ltb1 (key1 x) (key1 y)) →
  sorted ltb2 key2 reverse (map f l) = map f (sorted ltb1 key1 reverse l).
Proof. intros H. apply sorted_fmap_on. intros x y _ _. apply H. Qed.
End ListSortMap.

(** ** The stable sort *)

Section SortedFacts.
Context {A K : Type} (ltb : K → K → bool) (key : A → K).

Lemma insert_sorted_Permutation x l : insert_sorted ltb key x l ≡ₚ x :: l.
Proof.
  induction l as [|y l IH]; simpl; [done|].
  destruct (ltb (key y) (key x)); [|done].
  rewrite IH. apply Permutation_swap.
Qed.

Lemma sort_stable_Permutation l : sort_stable ltb key l ≡ₚ l.
Proof.
  induction l as [|x l IH]; simpl; [done|].
  by rewrite insert_sorted_Permutation, IH.
Qed.

(** Inserting keeps the order of what was there. *)
Lemma insert_sorted_sublist x l : l `sublist_of` insert_sorted ltb key x l.
Proof.
  induction l as [|y l IH]; simpl.
  - apply sublist_nil_l.
  - destruct (ltb (key y) (key x)).
    + by apply sublist_skip.
    + by apply sublist_cons.
Qed.

(** The new element lands in front of every element not smaller. *)
Lemma insert_sorted_before x y l :
  y ∈ l → ltb (key y) (key x) = false →
  [x; y] `sublist_of` insert_sorted ltb key x l.
Proof.
  intros Hy Hk. induction l as [|z l IH]; simpl.
  - by apply elem_of_nil in Hy.
  - destruct (ltb (key z) (key x)) eqn:Hz.
    + apply elem_of_cons in Hy as [-> | Hy]; [congruence|].
      apply sublist_cons. by apply IH.
    + by apply sublist_skip, singleton_sublist_l.
Qed.

Lemma sort_stable_before x y l :
  [x; y] `sublist_of` l → ltb (key y) (key x) = false →
  [x; y] `sublist_of` sort_stable ltb key l.
Proof.
  intros H Hk. induction l as [|z l IH]; simpl.
  - inversion H.
  - apply sublist_cons_r in H as [H | (l' & Heq & H)].
    + etrans; [by apply IH | apply insert_sorted_sublist].
    + injection Heq as -> <-.
      apply insert_sorted_before; [|done].
      rewrite sort_stable_Permutation. by apply singleton_sublist_l.
Qed.

(** Stability, with [reverse=True]: of two elements, the one that came
    first stays first unless its key is the smaller one. *)
Lemma stable_sorted_reverse_before x y l :
  before x y l → ltb (key x) (key y) = false →
  before x y (stable_sorted ltb key true l).
Proof.
  rewrite !before_sublist. intros H Hk. unfold stable_sorted.
  apply (sublist_rev [y; x]), sort_stable_before; [|done].
  by apply (sublist_rev [x; y]).
Qed.
End SortedFacts.

(** When [ltb] is the strict part of a total preorder, the stable sort
    sorts. *)
Section SortedOrder.
Context {A K : Type} (ltb : K → K → bool) (key : A → K).
Hypothesis ltb_asym : ∀ a b, ltb a b = true → ltb b a = false.
Hypothesis ltb_le_trans :
  ∀ a b c, ltb b a = false → ltb c b = false → ltb c a = false.

Lemma insert_sorted_Sorted x l :
  Sorted (key_le ltb key) l → Sorted (key_le ltb key) (insert_sorted ltb key x l).
Proof.
  induction 1 as [|y l Hl IH Hhd]; simpl.
  - by repeat constructor.
  - destruct (ltb (key y) (key x)) eqn:Hyx.
    + constructor; [done|].
      destruct l as [|z l]; simpl in *.
      * constructor. by apply ltb_asym.
      * destruct (ltb (key z) (key x)); constructor.
        -- by inversion Hhd.
        -- by apply ltb_asym.
    + by repeat constructor.
Qed.

Lemma sort_stable_Sorted l : Sorted (key_le ltb key) (sort_stable ltb key l).
Proof.
  induction l as [|x l IH]; simpl; [constructor|].
  by apply insert_sorted_Sorted.
Qed.

Lemma sort_stable_StronglySorted l :
  StronglySorted (key_le ltb key) (sort_stable ltb key l).
Proof.
  apply Sorted_StronglySorted; [|apply sort_stable_Sorted].
  intros x y z Hxy Hyz. unfold key_le in *. by eapply ltb_le_trans.
Qed.

Lemma StronglySorted_sublist (R : relation A) l x y :
  StronglySorted R l → [x; y] `sublist_of` l → R x y.
Proof.
  induction 1 as [|z l _ IH Hz]; intros H.
  - inversion H.
  - apply sublist_cons_r in H as [H | (l' & Heq & H)]; [by apply IH|].
    injection Heq as -> <-. apply singleton_sublist_l in H.
    rewrite Forall_forall in Hz. by apply Hz.
Qed.

(** With [reverse=True] the stable sort is descending: an element is never
    in front of one with a greater key. *)
Lemma stable_sorted_reverse_descending x y l :
  before x y (stable_sorted ltb key true l) → ltb (key x) (key y) = false.
Proof.
  rewrite before_sublist. unfold stable_sorted. intros H.
  apply (sublist_rev [x; y]) in H. rewrite rev_involutive in H.
  by apply (StronglySorted_sublist _ _ _ _ (sort_stable_StronglySorted _)) in H.
Qed.
End SortedOrder.

(** ** [sorted] under a total preorder *)

(** When [ltb] is the strict part of a total preorder, binary insertion
    is insertion behind the elements not greater, and the sort is the
    stable sort. *)
Section ListSortOrder.
Context {A K : Type} (ltb : K → K → bool) (key : A → K).
Hypothesis ltb_asym : ∀ a b, ltb a b = true → ltb b a = false.
Hypothesis ltb_le_trans :
  ∀ a b c, ltb b a = false → ltb c b = false → ltb c a = false.

Local Notation "'le'" := (key_le ltb key).
Local Notation "'behind'" := (λ acc x, insert_behind ltb key x acc).

Lemma ltb_trans a b c : ltb a b = true → ltb b c = true → ltb a c = true.
Proof.
  intros Hab Hbc. destruct (ltb a c) eqn:Hac; [done|].
  apply ltb_asym in Hbc. by rewrite (ltb_le_trans b c a) in Hab.
Qed.

Lemma insert_behind_Permutation x l : insert_behind ltb key x l ≡ₚ x :: l.
Proof.
  induction l as [|y l IH]; simpl; [done|].
  destruct (ltb (key x) (key y)); [done|].
  rewrite IH. apply Permutation_swap.
Qed.

Lemma insert_behind_StronglySorted x l :
  StronglySorted le l → StronglySorted le (insert_behind ltb key x l).
Proof.
  induction 1 as [|y l Hl IH Hy]; simpl; [by repeat constructor|].
  destruct (ltb (key x) (key y)) eqn:Hxy.
  - constructor; [by constructor|]. constructor; [by apply ltb_asym|].
    apply ltb_asym in Hxy. eapply Forall_impl; [done|]. intros z Hz.
    unfold key_le in *. by eapply ltb_le_trans.
  - constructor; [done|]. apply Forall_forall. intros z Hz.
    rewrite insert_behind_Permutation in Hz.
    apply elem_of_cons in Hz as [->|Hz]; [done|].
    rewrite Forall_forall in Hy. by apply Hy.
Qed.

Lemma foldl_behind_StronglySorted l : ∀ acc,
  StronglySorted le acc → StronglySorted le (foldl behind acc l).
Proof.
  induction l as [|x l IH]; intros acc Hacc; simpl; [done|].
  by apply IH, insert_behind_StronglySorted.
Qed.

(** Insertion in front of the equal elements and insertion behind them
    commute. *)
Lemma insert_sorted_behind x y l :
  insert_sorted ltb key x (insert_behind ltb key y l) =
  insert_behind ltb key y (insert_sorted ltb key x l).
Proof.
  induction l as [|z l IH]; simpl.
  - by destruct (ltb (key y) (key x)).
  - destruct (ltb (key y) (key z)) eqn:Hyz, (ltb (key z) (key x)) eqn:Hzx;
      simpl; rewrite ?Hyz, ?Hzx.
    + by rewrite (ltb_trans _ _ _ Hyz Hzx).
    + by destruct (ltb (key y) (key x)).
    + by rewrite IH.
    + by rewrite (ltb_le_trans _ _ _ Hzx Hyz).
Qed.

Lemma foldl_behind_insert_sorted x l : ∀ acc,
  foldl behind (insert_sorted ltb key x acc) l =
  insert_sorted ltb key x (foldl behind acc l).
Proof.
  induction l as [|y l IH]; intros acc; simpl; [done|].
  by rewrite <- insert_sorted_behind, IH.
Qed.

Lemma foldl_behind_sort_stable l : foldl behind [] l = sort_stable ltb key l.
Proof.
  induction l as [|x l IH]; simpl; [done|].
  by rewrite <- IH, <- foldl_behind_insert_sorted.
Qed.

Lemma StronglySorted_lookup (R : relation A) l i j x y :
  StronglySorted R l → i < j → l !! i = Some x → l !! j = Some y → R x y.
Proof.
  intros Hl. revert i j. induction Hl as [|z l _ IH Hz]; intros i j Hij Hi Hj.
  - done.
  - destruct j as [|j]; [lia|]. destruct i as [|i]; simpl in *.
    + injection Hi as ->. rewrite Forall_forall in Hz.
      by eapply Hz, list_elem_of_lookup_2.
    + apply (IH i j); [lia|done..].
Qed.

(** The binary search ends where the elements greater than the pivot
    begin. *)
Lemma bisect_spec x a fuel : ∀ l r,
  StronglySorted le a →
  l ≤ r ≤ length a → r - l ≤ fuel →
  (∀ i y, i < l → a !! i = Some y → ltb (key x) (key y) = false) →
  (∀ i y, r ≤ i → a !! i = Some y → ltb (key x) (key y) = true) →
  let pos := bisect ltb key fuel x a l r in
  pos ≤ length a ∧
  (∀ i y, i < pos → a !! i = Some y → ltb (key x) (key y) = false) ∧
  (∀ i y, pos ≤ i → a !! i = Some y → ltb (key x) (key y) = true).
Proof.
  intros l r Ha. revert l r.
  induction fuel as [|fuel IH]; intros l r Hlr Hfuel Hlo Hhi; cbn [bisect].
  - assert (r = l) as -> by lia. cbv zeta. split; [lia|done].
  - destruct (r <=? l) eqn:Hle.
    + apply Nat.leb_le in Hle. assert (r = l) as -> by lia.
      cbv zeta. split; [lia|done].
    + apply Nat.leb_gt in Hle.
      pose proof (Nat.Div0.div_le_upper_bound (r - l) 2 (r - l)) as Hhalf.
      assert ((r - l) / 2 < r - l) as Hlt by (apply Nat.div_lt; lia).
      set (p := l + (r - l) / 2) in *.
      destruct (a !! p) as [y|] eqn:Hy.
      2:{ apply lookup_ge_None in Hy. lia. }
      destruct (ltb (key x) (key y)) eqn:Hxy.
      * apply IH; [lia|lia|done|].
        intros i z Hi Hz. destruct (decide (r ≤ i)); [by eapply Hhi|].
        destruct (decide (i = p)) as [->|]; [congruence|].
        assert (le y z) as Hyz
          by (apply (StronglySorted_lookup _ a p i); [done|lia|done..]).
        destruct (ltb (key x) (key z)) eqn:Hxz; [done|].
        by rewrite (ltb_le_trans _ _ _ Hyz Hxz) in Hxy.
      * apply IH; [lia|lia| |done].
        intros i z Hi Hz. destruct (decide (i < l)); [by eapply Hlo|].
        destruct (decide (i = p)) as [->|]; [congruence|].
        assert (le z y) as Hzy
          by (apply (StronglySorted_lookup _ a i p); [done|lia|done..]).
        by apply (ltb_le_trans _ _ _ Hzy Hxy).
Qed.

Lemma split_insert_behind x a : ∀ pos,
  pos ≤ length a →
  (∀ i y, i < pos → a !! i = Some y → ltb (key x) (key y) = false) →
  (∀ y, a !! pos = Some y → ltb (key x) (key y) = true) →
  take pos a ++ x :: drop pos a = insert_behind ltb key x a.
Proof.
  induction a as [|y a IH]; intros pos Hpos Hlo Hhi; simpl in *.
  - by assert (pos = 0) as -> by lia.
  - destruct pos as [|pos]; simpl.
    + by rewrite (Hhi y).
    + rewrite (Hlo 0 y) by (done || lia). f_equal. apply IH; [lia| |done].
      intros i z Hi Hz. apply (Hlo (S i)); [lia|done].
Qed.

Lemma binary_insert_behind a x :
  StronglySorted le a → binary_insert ltb key a x = insert_behind ltb key x a.
Proof.
  intros Ha. unfold binary_insert.
  destruct (bisect_spec x a (length a) 0 (length a)) as (Hpos & Hlo & Hhi);
    [done|lia|lia|intros; lia| |].
  { intros i y Hi Hy. apply lookup_lt_Some in Hy. lia. }
  apply split_insert_behind; [done..|].
  intros y Hy. by apply (Hhi _ y (Nat.le_refl _)).
Qed.

Lemma binarysort_behind rest : ∀ run,
  StronglySorted le run → binarysort ltb key run rest = foldl behind run rest.
Proof.
  unfold binarysort. induction rest as [|x rest IH]; intros run Hrun; simpl;
    [done|].
  rewrite binary_insert_behind by done.
  by apply IH, insert_behind_StronglySorted.
Qed.

Lemma insert_behind_snoc x l :
  (∀ y, y ∈ l → ltb (key x) (key y) = false) →
  insert_behind ltb key x l = l ++ [x].
Proof.
  induction l as [|y l IH]; intros H; simpl; [done|].
  rewrite (H y) by by left. f_equal. apply IH. intros z Hz. apply H. by right.
Qed.

(** The first run, as [count_run] leaves it. *)
Lemma run_ascending_behind l : ∀ prev acc,
  StronglySorted le (acc ++ [prev]) →
  foldl behind (acc ++ [prev]) (take (run_ascending ltb key prev l) l) =
  acc ++ prev :: take (run_ascending ltb key prev l) l.
Proof.
  induction l as [|x l IH]; intros prev acc Hacc; simpl; [done|].
  destruct (ltb (key x) (key prev)) eqn:Hx; simpl; [done|].
  assert (insert_behind ltb key x (acc ++ [prev]) = (acc ++ [prev]) ++ [x])
    as Hins.
  { apply insert_behind_snoc. intros y Hy.
    apply elem_of_app in Hy as [Hy | Hy%list_elem_of_singleton]; [|by subst].
    apply list_elem_of_lookup in Hy as [i Hi].
    assert (le y prev) as Hle.
    { apply (StronglySorted_lookup _ (acc ++ [prev]) i (length acc));
        [done|by eapply lookup_lt_Some| |].
      - by rewrite lookup_app_l by by eapply lookup_lt_Some.
      - by rewrite lookup_app_r, Nat.sub_diag by lia. }
    by apply (ltb_le_trans _ _ _ Hle Hx). }
  rewrite Hins, IH.
  - by rewrite <- !app_assoc.
  - rewrite <- Hins. by apply insert_behind_StronglySorted.
Qed.

Lemma run_descending_behind l : ∀ prev acc,
  foldl behind (prev :: acc) (take (run_descending ltb key prev l) l) =
  rev (take (run_descending ltb key prev l) l) ++ prev :: acc.
Proof.
  induction l as [|x l IH]; intros prev acc; simpl; [done|].
  destruct (ltb (key x) (key prev)) eqn:Hx; simpl; [|done].
  rewrite Hx, IH. by rewrite <- app_assoc.
Qed.

Lemma list_sort_behind l : list_sort ltb key l = foldl behind [] l.
Proof.
  unfold list_sort.
  destruct (count_run ltb key l) as [n descending] eqn:Hrun.
  transitivity (foldl behind [] (take n l ++ drop n l));
    [|by rewrite take_drop].
  rewrite foldl_app.
  assert ((if descending then rev (take n l) else take n l) =
          foldl behind [] (take n l)) as ->.
  { destruct l as [|x [|y l]]; simpl in Hrun.
    - injection Hrun as <- <-. done.
    - injection Hrun as <- <-. done.
    - destruct (ltb (key y) (key x)) eqn:Hyx; injection Hrun as <- <-;
        cbn [Nat.add take foldl insert_behind]; rewrite Hyx.
      + rewrite run_descending_behind. simpl. by rewrite <- !app_assoc.
      + symmetry. apply (run_ascending_behind l y [x]).
        repeat constructor. done. }
  apply binarysort_behind, foldl_behind_StronglySorted. constructor.
Qed.

(** [sorted] is the stable sort. *)
Lemma sorted_stable_sorted reverse l :
  sorted ltb key reverse l = stable_sorted ltb key reverse l.
Proof.
  unfold sorted, stable_sorted.
  by rewrite !list_sort_behind, !foldl_behind_sort_stable.
Qed.
End ListSortOrder.

(** ** Comparing [float32] values *)

Lemma SFcompare_antisym x y :
  SFcompare y x = option_map CompOpp (SFcompare x y).
Proof.
  destruct x as [[]|[]| |[] mx ex], y as [[]|[]| |[] my ey]; simpl; try done;
    change (Pos.compare_cont Eq ?a ?b) with (Pos.compare a b);
    rewrite (Z.compare_antisym ex ey), (Pos.compare_antisym mx my);
    by destruct (ex ?= ey)%Z, (mx ?= my)%positive.
Qed.

Lemma f32_ltb_asym x y : f32_ltb x y = true → f32_ltb y x = false.
Proof.
  unfold f32_ltb, SFltb. rewrite (SFcompare_antisym x y).
  by destruct (SFcompare x y) as [[]|].
Qed.

(** Equal values are not smaller than one another. *)
Lemma f32_eqb_ltb x y :
  f32_eqb x y = true → f32_ltb x y = false ∧ f32_ltb y x = false.
Proof.
  unfold f32_eqb, SFeqb, f32_ltb, SFltb. rewrite (SFcompare_antisym x y).
  by destruct (SFcompare x y) as [[]|].
Qed.

Lemma f32_ltb_number x y : f32_ltb x y = true → is_nan x = false ∧ is_nan y = false.
Proof. by destruct x, y. Qed.

(** "Not greater" is transitive through a number. *)
Lemma f32_ltb_le_trans x y z :
  is_nan y = false →
  f32_ltb y x = false → f32_ltb z y = false → f32_ltb z x = false.
Proof.
  unfold f32_ltb, SFltb.
  destruct x as [[]|[]| |[] mx ex], y as [[]|[]| |[] my ey],
    z as [[]|[]| |[] mz ez]; simpl; try done; intros _;
    change (Pos.compare_cont Eq ?a ?b) with (Pos.compare a b);
    repeat match goal with
    | |- context [(?a ?= ?b)%Z] => destruct (Z.compare_spec a b)
    | |- context [(?a ?= ?b)%positive] => destruct (Pos.compare_spec a b)
    end; simpl; try done; try lia.
Qed.

Lemma nan_first_ltb_asym x y :
  nan_first_ltb x y = true → nan_first_ltb y x = false.
Proof. destruct x, y; simpl; try done; apply f32_ltb_asym. Qed.

Lemma nan_first_ltb_le_trans x y z :
  nan_first_ltb y x = false → nan_first_ltb z y = false →
  nan_first_ltb z x = false.
Proof.
  destruct (is_nan y) eqn:Hy.
  - destruct y; try done. by destruct x, z.
  - destruct x, y, z; simpl; try done; by apply f32_ltb_le_trans.
Qed.

Lemma nan_first_ltb_numbers x y :
  is_nan x = false → is_nan y = false → nan_first_ltb x y = f32_ltb x y.
Proof. by destruct x, y. Qed.

(** ** The ranking of [search.py] *)


(** The ranking sorts the rows themselves, each by its similarity. *)
Lemma ranking_by_rows q M :
  length q = ncols M →
  ranking q M =
  Ok (map snd (sorted f32_ltb (λ p, dot q p.1) true
                 (zip (rows M) (seq 0 (shape0 M))))).
Proof.
  intros Hlen. unfold ranking, similarities, best_photos.
  rewrite decide_True by done. f_equal.
  replace (zip (map (dot q) (rows M)) (seq 0 (shape0 M)))
    with (map (prod_map (dot q) id) (zip (rows M) (seq 0 (shape0 M)))).
  2:{ change (prod_map (dot q) id <$> zip (rows M) (seq 0 (shape0 M)) =
              zip (dot q <$> rows M) (seq 0 (shape0 M))).
      by rewrite prod_map_zip, list_fmap_id. }
  rewrite (sorted_fmap f32_ltb f32_ltb (λ p, dot q p.1) fst) by done.
  rewrite map_map. by apply map_ext.
Qed.

Lemma ranking_Permutation q M rk :
  ranking q M = Ok rk → rk ≡ₚ seq 0 (shape0 M).
Proof.
  unfold ranking, best_photos. destruct (similarities q M) as [sims|] eqn:Hs;
    [|done].
  intros H. assert (rk = map snd (sorted f32_ltb fst true
                                    (zip sims (seq 0 (shape0 M))))) as ->
    by congruence.
  rewrite sorted_Permutation.
  unfold similarities in Hs. case_decide; [|done].
  assert (sims = map (dot q) (rows M)) as -> by congruence.
  change (map snd ?l) with (l.*2).
  rewrite snd_zip; [done|]. by rewrite length_seq, length_map.
Qed.


(** When no similarity is NaN, the ranking is the stably sorted one. *)
Lemma ranking_stable q M :
  length q = ncols M → no_nan q M →
  ranking q M =
  Ok (map snd (stable_sorted nan_first_ltb (λ p, dot q p.1) true
                 (zip (rows M) (seq 0 (shape0 M))))).
Proof.
  intros Hlen Hnan. rewrite ranking_by_rows by done. do 2 f_equal.
  rewrite <- (sorted_stable_sorted nan_first_ltb _
                nan_first_ltb_asym nan_first_ltb_le_trans).
  rewrite <- (map_id (zip _ _)) at 2.
  rewrite (sorted_fmap_on f32_ltb nan_first_ltb (λ p, dot q p.1)
             (λ p, dot q p.1) id); [by rewrite map_id|].
  intros [u i] [v j] Hu Hv. simpl.
  apply elem_of_zip_l in Hu, Hv. apply nan_first_ltb_numbers; by apply Hnan.
Qed.

Lemma ranking_length q M rk : ranking q M = Ok rk → length q = ncols M.
Proof. unfold ranking, similarities. by case_decide. Qed.

Lemma lookup_zip_seq {A} (l : list A) i x :
  l !! i = Some x → zip l (seq 0 (length l)) !! i = Some (x, i).
Proof.
  intros Hi. pose proof (lookup_lt_Some _ _ _ Hi).
  apply lookup_zip_with_Some. eexists _, _. split; [done|]. split; [done|].
  by apply lookup_seq.
Qed.

(** X2. The ranking is by descending similarity: when no similarity is
    NaN, a row with a greater similarity to the query is listed before a
    row with a smaller one. *)
Lemma ranking_descending q M rk r s vr vs :
  ranking q M = Ok rk → no_nan q M →
  rows M !! r = Some vr → rows M !! s = Some vs →
  f32_ltb (dot q vs) (dot q vr) = true →
  before r s rk.
Proof.
  intros Hrk Hnan Hr Hs Hlt.
  pose proof (ranking_Permutation _ _ _ Hrk) as Hperm.
  assert (r ≠ s) as Hne.
  { intros ->. assert (vr = vs) as -> by congruence.
    by rewrite (f32_ltb_asym _ _ Hlt) in Hlt. }
  assert (r ∈ rk ∧ s ∈ rk) as [Hrin Hsin].
  { rewrite Hperm, !elem_of_seq. apply lookup_lt_Some in Hr, Hs.
    unfold shape0. lia. }
  apply list_elem_of_lookup in Hrin as [i Hi], Hsin as [j Hj].
  destruct (Nat.lt_total i j) as [Hij | [-> | Hji]].
  - by exists i, j.
  - congruence.
  - exfalso.
    rewrite ranking_stable in Hrk by (by eapply ranking_length || done).
    set (best := stable_sorted nan_first_ltb (λ p, dot q p.1) true
                   (zip (rows M) (seq 0 (shape0 M)))) in *.
    assert (rk = map snd best) as -> by congruence.
    change (map snd best) with (snd <$> best) in Hi, Hj.
    rewrite list_lookup_fmap in Hi, Hj.
    destruct (best !! i) as [[vr' r']|] eqn:Hbi; [|done].
    destruct (best !! j) as [[vs' s']|] eqn:Hbj; [|done].
    simpl in Hi, Hj. injection Hi as ->. injection Hj as ->.
    assert (∀ v k, (v, k) ∈ best → rows M !! k = Some v) as Hrows.
    { intros v k Hin. unfold best, stable_sorted in Hin.
      rewrite <- Permutation_rev, sort_stable_Permutation, <- Permutation_rev
        in Hin.
      apply list_elem_of_lookup in Hin as [n Hn].
      apply lookup_zip_with_Some in Hn as (v' & k' & [= -> ->] & Hv & Hk).
      apply lookup_seq in Hk as [-> _]. done. }
    assert (vr' = vr) as ->.
    { apply list_elem_of_lookup_2, Hrows in Hbi. congruence. }
    assert (vs' = vs) as ->.
    { apply list_elem_of_lookup_2, Hrows in Hbj. congruence. }
    assert (before (vs, s) (vr, r) best) as Hbefore by (by exists j, i).
    apply (stable_sorted_reverse_descending nan_first_ltb _
             nan_first_ltb_asym nan_first_ltb_le_trans) in Hbefore.
    simpl in Hbefore. apply f32_ltb_number in Hlt as Hnum.
    rewrite nan_first_ltb_numbers in Hbefore by tauto. congruence.
Qed.

(** C5, as the specification has it, fails: row 2 has no similarity (NaN;
    a feature row that holds a NaN, as normalising a zero vector gives),
    rows 0 and 1 have the same similarity to the query, and the ranking
    lists row 1 in front of row 0; it is not descending either, the best
    row, 6, comes third. *)
Lemma ranking_ties_nan_counterexample :
  let M := {| ncols := 1;
              rows := [[f32 1]; [f32 1]; [nan]; [f32 1]; [f32 1]; [f32 1];
                       [f32 2]] |} in
  similarities [f32 1] M =
    Ok [f32 1; f32 1; nan; f32 1; f32 1; f32 1; f32 2] ∧
  f32_eqb (dot [f32 1] [f32 1]) (dot [f32 1] [f32 1]) = true ∧
  ranking [f32 1] M = Ok [1; 2; 6; 0; 3; 4; 5] ∧
  before 1 0 [1; 2; 6; 0; 3; 4; 5].
Proof.
  split; [|split; [|split]]; try (vm_compute; reflexivity).
  exists 0, 3. split; [lia|]. split; reflexivity.
Qed.

(** C5, amended. When no similarity is NaN, ties are broken by ascending
    row index: whenever rows [r < s] have equal similarity to the query,
    the ranking lists [r] at an earlier position than [s] (the ranking
    holds every row index exactly once, see [ranking_Permutation]). *)
Theorem ranking_ties_by_row_index q M rk r s vr vs :
  ranking q M = Ok rk → no_nan q M →
  rows M !! r = Some vr → rows M !! s = Some vs →
  r < s → f32_eqb (dot q vr) (dot q vs) = true →
  before r s rk.
Proof.
  intros Hrk Hnan Hr Hs Hlt Heq.
  rewrite ranking_stable in Hrk by (by eapply ranking_length || done).
  assert (rk = map snd (stable_sorted nan_first_ltb (λ p, dot q p.1) true
                          (zip (rows M) (seq 0 (shape0 M))))) as ->
    by congruence.
  apply before_sublist.
  change [r; s] with (map snd [(vr, r); (vs, s)]).
  apply (fmap_sublist snd), before_sublist.
  apply stable_sorted_reverse_before.
  - exists r, s. split; [done|]. split; by apply lookup_zip_seq.
  - cbn [fst]. rewrite nan_first_ltb_numbers
      by (apply Hnan; by eapply list_elem_of_lookup_2).
    by destruct (f32_eqb_ltb _ _ Heq).
Qed.

Lemma ranking_ties_by_row_index_witness :
  ranking [f32 1; f32 0]
    {| ncols := 2; rows := [[f32 1; f32 5]; [f32 2; f32 0]; [f32 1; f32 7]] |} =
    Ok [1; 0; 2] ∧
  before 0 2 [1; 0; 2].
Proof.
  split; [vm_compute; reflexivity|].
  apply (ranking_ties_by_row_index [f32 1; f32 0]
           {| ncols := 2;
              rows := [[f32 1; f32 5]; [f32 2; f32 0]; [f32 1; f32 7]] |}
           [1; 0; 2] 0 2 [f32 1; f32 5] [f32 1; f32 7]).
  - vm_compute. reflexivity.
  - intros v Hv. repeat (apply elem_of_cons in Hv as [->|Hv]);
      [reflexivity..|by apply elem_of_nil in Hv].
  - reflexivity.
  - reflexivity.
  - lia.
  - vm_compute. reflexivity.
Defined.





(** ** The query loop of [search.py] *)

(** The printing loop over [range(a, a + k)]: it prints the entries of
    [best] from position [a] on, and raises once it runs past the end. *)
Lemma print_results_seq best ids k : ∀ a,
  (∀ p, p ∈ best → is_Some (ids !! p.2)) →
  a ≤ length best →
  print_results best ids (seq a k) =
  (map (λ p, Print (ids !!! p.2)) (take k (drop a best)),
   if decide (a + k ≤ length best) then Ok tt else Raise IndexError).
Proof.
  induction k as [|k IH]; intros a Hids Ha; simpl.
  - by rewrite decide_True by lia.
  - destruct (best !! a) as [[sim idx]|] eqn:Hbest.
    + pose proof (lookup_lt_Some _ _ _ Hbest) as Hlt.
      destruct (Hids (sim, idx)) as [photo_id Hid];
        [by eapply list_elem_of_lookup_2|]. simpl in Hid. rewrite Hid.
      rewrite IH by (done || lia).
      rewrite (drop_S _ _ _ Hbest). simpl.
      rewrite (list_lookup_total_correct _ _ _ Hid).
      f_equal. repeat case_decide; done || lia.
    + apply lookup_ge_None in Hbest.
      rewrite drop_ge by done. rewrite decide_False by lia. by destruct k.
Qed.

Lemma best_photos_fmap_snd tf M sims :
  similarities tf M = Ok sims →
  ranking tf M = Ok (map snd (best_photos sims (shape0 M))).
Proof. intros H. unfold ranking. by rewrite H. Qed.

(** What one query does on an index whose identifiers line up with its
    rows: it prints the identifiers of the first [display_num] rows of the
    ranking, and raises [IndexError] when [display_num] exceeds the number
    of rows. *)
Lemma query_answers E ix q tf rk :
  compute_text_feature E q = Ok tf →
  ranking tf (photo_features ix) = Ok rk →
  length (photo_ids ix) = shape0 (photo_features ix) →
  query E ix q =
  (map (λ idx, Print (photo_ids ix !!! idx)) (take (display_num E) rk),
   if decide (display_num E ≤ shape0 (photo_features ix))
   then Ok tt else Raise IndexError).
Proof.
  intros Htf Hrk Hal. unfold query. rewrite Htf.
  pose proof (ranking_Permutation _ _ _ Hrk) as Hperm.
  destruct (similarities tf (photo_features ix)) as [sims|] eqn:Hs.
  2:{ unfold ranking in Hrk. by rewrite Hs in Hrk. }
  rewrite (best_photos_fmap_snd _ _ _ Hs) in Hrk.
  assert (rk = map snd (best_photos sims (shape0 (photo_features ix)))) as ->
    by congruence.
  set (best := best_photos sims (shape0 (photo_features ix))) in *.
  assert (length best = shape0 (photo_features ix)) as Hlen.
  { apply Permutation_length in Hperm.
    by rewrite length_map, length_seq in Hperm. }
  rewrite (print_results_seq best (photo_ids ix) (display_num E) 0).
  - rewrite drop_0, Nat.add_0_l, Hlen. f_equal.
    change (map snd best) with (snd <$> best).
    rewrite <- fmap_take. change (snd <$> ?l) with (map snd l).
    by rewrite map_map.
  - intros p Hp. apply lookup_lt_is_Some. rewrite Hal.
    assert (p.2 ∈ seq 0 (shape0 (photo_features ix))) as Hin.
    { rewrite <- Hperm. change (map snd best) with (snd <$> best).
      by apply list_elem_of_fmap_2. }
    apply elem_of_seq in Hin. lia.
  - lia.
Qed.

(** Queries that succeed are answered in turn and the loop goes on. *)
Lemma query_loop_app E ix qs stdin :
  Forall (λ q, q ≠ "" ∧ (query E ix q).2 = Ok tt) qs →
  query_loop E ix (qs ++ stdin) =
  (answers E ix qs ++ (query_loop E ix stdin).1, (query_loop E ix stdin).2).
Proof.
  induction 1 as [|q qs [Hq Hok] _ IH].
  - simpl. by destruct (query_loop E ix stdin).
  - cbn [app query_loop]. rewrite decide_False by done.
    destruct (query E ix q) as [out r] eqn:Hquery. simpl in Hok. subst r.
    rewrite IH. unfold answers. cbn [map concat]. rewrite Hquery. simpl.
    by rewrite <- app_assoc.
Qed.

(** C4. With [display_num = 10] and a corpus of four photos the query
    prints the four identifiers in ranked order and then fails: the
    printing loop indexes [best_photos] past its end, the [IndexError] is
    not caught, and the session is over. *)
Theorem query_display_num_exceeds_corpus :
  query (asking_for 10) four_photos "cat" =
    ([Print "/p/a.jpg"; Print "/p/c.jpg"; Print "/p/d.jpg"; Print "/p/b.jpg"],
     Raise IndexError) ∧
  session (asking_for 10) four_photos ["cat"; "dog"; ""] =
    ([PhotosFound 4; Print "press Enter to quit"; Prompt;
      Print "/p/a.jpg"; Print "/p/c.jpg"; Print "/p/d.jpg"; Print "/p/b.jpg"],
     Uncaught IndexError).
Proof. split; vm_compute; reflexivity. Qed.

(** The same for every aligned index: asking for more results than there
    are rows prints the whole ranking and raises [IndexError]. *)
Lemma query_overrun E ix q tf rk :
  compute_text_feature E q = Ok tf →
  ranking tf (photo_features ix) = Ok rk →
  length (photo_ids ix) = shape0 (photo_features ix) →
  shape0 (photo_features ix) < display_num E →
  query E ix q =
  (map (λ idx, Print (photo_ids ix !!! idx)) rk, Raise IndexError).
Proof.
  intros Htf Hrk Hal Hlt. rewrite (query_answers E ix q tf rk) by done.
  rewrite decide_False by lia. f_equal. f_equal. apply take_ge.
  apply ranking_Permutation, Permutation_length in Hrk.
  rewrite length_seq in Hrk. lia.
Qed.

(** C7, as the specification has it, fails: were a failing query only
    reported, the session would end the way it ends on the lines that
    follow that query. *)
Lemma encoder_failure_query_scoped_counterexample :
  compute_text_feature (asking_for 2) "bad" = Raise RuntimeError ∧
  (query_loop (asking_for 2) four_photos ["cat"; ""]).2 = Exit ∧
  query_loop (asking_for 2) four_photos ["bad"; "cat"; ""] =
    ([Prompt], Uncaught RuntimeError).
Proof. repeat split; vm_compute; reflexivity. Qed.

(** C7, amended. An error of the text encoder is not caught: the queries
    before the failing one are answered, the failing query is prompted for
    and prints nothing, the error leaves the loop, and whatever follows on
    the input is neither prompted for nor answered. *)
Theorem encoder_failure_ends_session E ix qs q e stdin :
  Forall (λ q', q' ≠ "" ∧ (query E ix q').2 = Ok tt) qs →
  q ≠ "" →
  compute_text_feature E q = Raise e →
  query_loop E ix (qs ++ q :: stdin) =
  (answers E ix qs ++ [Prompt], Uncaught e).
Proof.
  intros Hqs Hq He. rewrite query_loop_app by done.
  cbn [query_loop]. rewrite decide_False by done.
  unfold query. by rewrite He.
Qed.

Lemma encoder_failure_ends_session_witness :
  query_loop (asking_for 2) four_photos (["cat"] ++ "bad" :: ["dog"; ""]) =
  (answers (asking_for 2) four_photos ["cat"] ++ [Prompt],
   Uncaught RuntimeError).
Proof.
  apply (encoder_failure_ends_session (asking_for 2) four_photos
           ["cat"] "bad" RuntimeError ["dog"; ""]).
  - repeat constructor; vm_compute; congruence.
  - vm_compute; congruence.
  - vm_compute; reflexivity.
Defined.

(** ** File names of the batches *)

Lemma read_decimal_zeros k s : read_decimal (zeros k +:+ s) = read_decimal s.
Proof.
  induction k as [|k IH]; [done|].
  unfold read_decimal in *. simpl.
  destruct (NilEmpty.uint_of_string (zeros k +:+ s)); simpl in *; by rewrite <- IH.
Qed.

Lemma read_decimal_decimal i : read_decimal (decimal i) = Some i.
Proof.
  unfold read_decimal, decimal.
  assert (Nat.to_uint i ≠ Decimal.Nil) as Hnil.
  { rewrite <- (Unsigned.of_to i), Unsigned.to_of. apply unorm_nonnil. }
  replace (NilZero.string_of_uint (Nat.to_uint i))
    with (NilEmpty.string_of_uint (Nat.to_uint i))
    by (by destruct (Nat.to_uint i)).
  by rewrite NilEmpty.usu; simpl; rewrite Unsigned.of_to.
Qed.

Lemma read_decimal_fmt_010d i : read_decimal (fmt_010d i) = Some i.
Proof. unfold fmt_010d. by rewrite read_decimal_zeros, read_decimal_decimal. Qed.

Lemma fmt_010d_inj i j : fmt_010d i = fmt_010d j → i = j.
Proof.
  intros H. apply (f_equal read_decimal) in H.
  rewrite !read_decimal_fmt_010d in H. congruence.
Qed.

Lemma string_length_app s t :
  String.length (s +:+ t) = String.length s + String.length t.
Proof. induction s as [|c s IH]; simpl; [done | by rewrite IH]. Qed.

Lemma string_app_inv s1 s2 t1 t2 :
  String.length t1 = String.length t2 →
  s1 +:+ t1 = s2 +:+ t2 → s1 = s2 ∧ t1 = t2.
Proof.
  intros Hlen H.
  assert (String.length s1 = String.length s2) as Hs.
  { apply (f_equal String.length) in H. rewrite !string_length_app in H. lia. }
  revert s2 H Hs. induction s1 as [|c s1 IH]; intros [|d s2] H Hs;
    simpl in *; try done.
  injection H as -> H. destruct (IH s2 H) as [-> ->]; [lia|done].
Qed.

Lemma batch_features_path_inj i j :
  batch_features_path i = batch_features_path j → i = j.
Proof.
  intros H. apply string_app_inv in H as [H _]; [|done]. by apply fmt_010d_inj.
Qed.

Lemma batch_ids_path_inj i j : batch_ids_path i = batch_ids_path j → i = j.
Proof.
  intros H. apply string_app_inv in H as [H _]; [|done]. by apply fmt_010d_inj.
Qed.

Lemma batch_paths_differ i j : batch_features_path i ≠ batch_ids_path j.
Proof. intros H. by apply string_app_inv in H as [_ H]. Qed.

Lemma batch_features_path_not_merged i :
  batch_features_path i ≠ "features.npy".
Proof.
  intros H. apply (string_app_inv _ "features") in H as [H _]; [|done].
  apply (f_equal read_decimal) in H. by rewrite read_decimal_fmt_010d in H.
Qed.

Lemma batch_ids_path_not_merged i : batch_ids_path i ≠ "photo_ids.csv".
Proof.
  intros H. apply (string_app_inv _ "photo_ids") in H as [H _]; [|done].
  apply (f_equal read_decimal) in H. by rewrite read_decimal_fmt_010d in H.
Qed.

(** ** The batch loop of [process.py] *)

Ltac run_monad :=
  unfold mbind, M_bind, mret, M_ret, lift, emit, path_exists, try_except,
    np_save, to_csv, write; simpl.

(** A failed write touches the file it was to write, and removes
    nothing. *)
Lemma failed_write_lookup E p c d :
  failed_write E p c d !! p =
  match leftover E p c with Some c' => Some c' | None => d !! p end.
Proof. unfold failed_write. case_match; [by rewrite lookup_insert_eq|done]. Qed.

Lemma failed_write_frame E p q c d :
  p ≠ q → failed_write E q c d !! p = d !! p.
Proof.
  intros Hpq. unfold failed_write. case_match; [|done].
  by rewrite lookup_insert_ne.
Qed.

Lemma failed_write_is_Some E p q c d :
  is_Some (d !! p) → is_Some (failed_write E q c d !! p).
Proof.
  intros Hp. unfold failed_write. case_match; [|done].
  rewrite lookup_insert_is_Some'. by right.
Qed.

(** One batch, case by case. *)
Lemma process_batch_cases E nb i w :
  process_batch E nb i w =
  let seen := trace w ++ [ProcessingBatch (i + 1) nb] in
  if bool_decide (is_Some (fs w !! batch_features_path i))
  then ({| fs := fs w; trace := seen |}, Ok tt)
  else
    let called := seen ++ [Encode i (batch_files E i)] in
    let failed d :=
      ({| fs := d; trace := called ++ [ProblemWithBatch i] |}, Ok tt) in
    match compute_image_features E (batch_files E i) with
    | Raise _ => failed (fs w)
    | Ok batch_features =>
        if write_fails E (batch_features_path i)
        then failed (failed_write E (batch_features_path i)
                       (Array batch_features) (fs w))
        else
          let d := <[batch_features_path i := Array batch_features]> (fs w) in
          match traverse (resolve E) (batch_files E i) with
          | Raise _ => failed d
          | Ok ids =>
              if write_fails E (batch_ids_path i)
              then failed (failed_write E (batch_ids_path i) (Table ids) d)
              else ({| fs := <[batch_ids_path i := Table ids]> d;
                       trace := called |}, Ok tt)
          end
    end.
Proof.
  unfold process_batch, batch_try. run_monad.
  repeat case_match; simplify_eq; reflexivity.
Qed.

(** The [try] body of a batch, case by case. *)
Lemma batch_try_cases E i w :
  batch_try E i w =
  let called := trace w ++ [Encode i (batch_files E i)] in
  match compute_image_features E (batch_files E i) with
  | Raise e => ({| fs := fs w; trace := called |}, Raise e)
  | Ok batch_features =>
      if write_fails E (batch_features_path i)
      then ({| fs := failed_write E (batch_features_path i)
                       (Array batch_features) (fs w);
               trace := called |}, Raise OSError)
      else
        let d := <[batch_features_path i := Array batch_features]> (fs w) in
        match traverse (resolve E) (batch_files E i) with
        | Raise e => ({| fs := d; trace := called |}, Raise e)
        | Ok ids =>
            if write_fails E (batch_ids_path i)
            then ({| fs := failed_write E (batch_ids_path i) (Table ids) d;
                     trace := called |}, Raise OSError)
            else ({| fs := <[batch_ids_path i := Table ids]> d;
                     trace := called |}, Ok tt)
        end
  end.
Proof.
  unfold batch_try. run_monad. repeat case_match; simplify_eq; reflexivity.
Qed.

(** The batch loop never stops at a batch: the bare [except] takes all. *)
Lemma process_batch_ok E nb i w : (process_batch E nb i w).2 = Ok tt.
Proof. rewrite process_batch_cases. simpl. by repeat case_match. Qed.

(** A batch writes to its own two files only. *)
Lemma process_batch_frame E nb i w p :
  p ≠ batch_features_path i → p ≠ batch_ids_path i →
  fs (process_batch E nb i w).1 !! p = fs w !! p.
Proof.
  intros Hf Hi. rewrite process_batch_cases. simpl.
  repeat case_match; simpl;
    by rewrite ?failed_write_frame, ?lookup_insert_ne by done.
Qed.

(** The encoder is called for batch [i] by the step of batch [i] only, and
    only when its feature artifact is not there. *)
Lemma process_batch_encode E nb j w i files :
  Encode i files ∈ trace (process_batch E nb j w).1 →
  Encode i files ∈ trace w ∨
  (j = i ∧ fs w !! batch_features_path i = None).
Proof.
  rewrite process_batch_cases. simpl.
  destruct (bool_decide (is_Some (fs w !! batch_features_path j))) eqn:Hex.
  - simpl. rewrite elem_of_app, list_elem_of_singleton. intros [?|?]; [by left|done].
  - apply bool_decide_eq_false in Hex. rewrite <- eq_None_not_Some in Hex.
    destruct (compute_image_features E (batch_files E j));
      [destruct (write_fails E (batch_features_path j));
       [|destruct (traverse (resolve E) (batch_files E j));
         [destruct (write_fails E (batch_ids_path j))|]]|];
      simpl; rewrite !elem_of_app, !list_elem_of_singleton; intros H;
      intuition (simplify_eq; eauto).
Qed.

(** The step of a batch whose feature artifact exists: it prints its
    progress line and nothing else happens. *)
Lemma process_batch_skip E nb i w :
  is_Some (fs w !! batch_features_path i) →
  process_batch E nb i w =
  ({| fs := fs w; trace := trace w ++ [ProcessingBatch (i + 1) nb] |}, Ok tt).
Proof.
  intros H. rewrite process_batch_cases. simpl. by rewrite bool_decide_eq_true_2.
Qed.

(** A loop whose body never raises runs to its end and keeps every
    invariant of the body. *)
Lemma for_each_invariant {A} (Inv : world → Prop) (body : A → M unit) l :
  (∀ x w, x ∈ l → Inv w → Inv (body x w).1 ∧ (body x w).2 = Ok tt) →
  ∀ w, Inv w → Inv (for_each l body w).1 ∧ (for_each l body w).2 = Ok tt.
Proof.
  induction l as [|x l IH]; intros Hbody w Hw; simpl; [done|].
  unfold mbind, M_bind.
  destruct (Hbody x w) as [Hw' Hok]; [by left|done|].
  destruct (body x w) as [w' r]. simpl in *. subst r.
  apply IH; [|done]. intros y w'' Hy. apply Hbody. by right.
Qed.

(** ** The merge step *)

Lemma load_all_np_load l w :
  load_all np_load l w = (w, traverse (read_array (fs w)) l).
Proof.
  induction l as [|p l IH]; simpl; [done|].
  unfold mbind, M_bind, np_load at 1. destruct (read_array (fs w) p); [|done].
  rewrite IH. by destruct (traverse _ l).
Qed.

Lemma load_all_read_csv l w :
  load_all read_csv l w = (w, traverse (read_table (fs w)) l).
Proof.
  induction l as [|p l IH]; simpl; [done|].
  unfold mbind, M_bind, read_csv at 1. destruct (read_table (fs w) p); [|done].
  rewrite IH. by destruct (traverse _ l).
Qed.

(** The merge step, case by case. *)
Lemma merge_cases E w :
  merge E w =
  match arrays_in (fs w) with
  | Raise e => (w, Raise e)
  | Ok features_list =>
      match np_concatenate features_list with
      | Raise e => (w, Raise e)
      | Ok features =>
          if write_fails E "features.npy"
          then ({| fs := failed_write E "features.npy" (Array features) (fs w);
                   trace := trace w |}, Raise OSError)
          else
            let d := <["features.npy" := Array features]> (fs w) in
            let w1 := {| fs := d; trace := trace w |} in
            match tables_in d with
            | Raise e => (w1, Raise e)
            | Ok frames =>
                match pd_concat frames with
                | Raise e => (w1, Raise e)
                | Ok photo_ids =>
                    if write_fails E "photo_ids.csv"
                    then ({| fs := failed_write E "photo_ids.csv"
                                     (Table photo_ids) d;
                             trace := trace w |}, Raise OSError)
                    else ({| fs := <["photo_ids.csv" := Table photo_ids]> d;
                             trace := trace w |}, Ok tt)
                end
            end
      end
  end.
Proof.
  unfold merge, arrays_in, tables_in, listing.
  unfold mbind at 1, M_bind at 1, glob at 1.
  unfold mbind at 1, M_bind at 1. rewrite load_all_np_load.
  destruct (traverse (read_array (fs w)) _) as [features_list|]; [|done].
  unfold mbind at 1, M_bind at 1, lift at 1.
  destruct (np_concatenate features_list) as [features|]; [|done].
  unfold mbind at 1, M_bind at 1, np_save, write.
  destruct (write_fails E "features.npy"); [done|].
  unfold mbind at 1, M_bind at 1, glob.
  unfold mbind at 1, M_bind at 1. rewrite load_all_read_csv. simpl.
  destruct (traverse (read_table _) _) as [frames|]; [|done].
  unfold mbind at 1, M_bind at 1, lift at 1.
  destruct (pd_concat frames) as [photo_ids|]; [|done].
  unfold to_csv, write. by destruct (write_fails E "photo_ids.csv").
Qed.

(** The merge step writes to the two consolidated files only, and calls
    nothing that is observed. *)
Lemma merge_frame E w p :
  p ≠ "features.npy" → p ≠ "photo_ids.csv" →
  fs (merge E w).1 !! p = fs w !! p.
Proof.
  intros Hf Hi. rewrite merge_cases. cbv zeta.
  repeat case_match; simpl;
    by rewrite ?failed_write_frame, ?lookup_insert_ne by done.
Qed.

Lemma merge_trace E w : trace (merge E w).1 = trace w.
Proof. rewrite merge_cases. cbv zeta. by repeat case_match. Qed.

Lemma batch_features_path_not_csv i s : batch_features_path i ≠ s +:+ ".csv".
Proof. intros H. by apply string_app_inv in H as [_ H]. Qed.

Lemma batch_ids_path_not_npy i s : batch_ids_path i ≠ s +:+ ".npy".
Proof. intros H. by apply string_app_inv in H as [_ H]. Qed.

(** ** Failing batches *)

(** C3, as the specification has it, fails.  The identifier file of batch
    0 cannot be written: the batch fails, and its feature artifact stays
    on disk without an identifier artifact.  And where the save of the
    feature artifact fails after the file was created, a file that is not
    loadable stays on disk. *)
Lemma batch_all_or_nothing_counterexample :
  let E := pipeline ["a.jpg"; "b.jpg"] ["*.jpg"] 2 ["0000000000.csv"] in
  let E' :=
    pipeline_cut_short ["a.jpg"; "b.jpg"] ["*.jpg"] 2 ["0000000000.npy"] in
  ((run_on (batch_try E 0) ∅).2 = Raise OSError ∧
   fs (run_on (process_batch E 1 0) ∅).1 !! batch_features_path 0 =
     Some (Array {| ncols := 2; rows := [[f32 1; f32 0]; [f32 1; f32 0]] |}) ∧
   fs (run_on (process_batch E 1 0) ∅).1 !! batch_ids_path 0 = None) ∧
  ((run_on (batch_try E' 0) ∅).2 = Raise OSError ∧
   fs (run_on (process_batch E' 1 0) ∅).1 !! batch_features_path 0 =
     Some Truncated ∧
   fs (run_on (process_batch E' 1 0) ∅).1 !! batch_ids_path 0 = None).
Proof. repeat split; vm_compute; reflexivity. Qed.

(** C3, amended. When the processing of a batch fails, what it leaves
    depends on where the failure came.  When the encoder raised, the
    directory is as it was.  When the save of the feature artifact failed,
    the identifier artifact is untouched and at the path of the feature
    artifact there is what the failed save left: nothing, or a file cut
    short.  When the failure came later (resolving the paths, writing the
    identifier artifact), the feature artifact has been saved in full and
    stays; the identifier artifact is untouched if the paths could not be
    resolved, and otherwise holds what the failed write left, if
    anything.  No other file is touched. *)
Theorem failed_batch_artifacts E nb i w e :
  fs w !! batch_features_path i = None →
  (batch_try E i w).2 = Raise e →
  let npy := batch_features_path i in
  let csv := batch_ids_path i in
  let d' := fs (process_batch E nb i w).1 in
  (∀ p, p ≠ npy → p ≠ csv → d' !! p = fs w !! p) ∧
  match compute_image_features E (batch_files E i) with
  | Raise _ => d' = fs w
  | Ok batch_features =>
      if write_fails E npy
      then d' !! npy = leftover E npy (Array batch_features) ∧
           d' !! csv = fs w !! csv
      else d' !! npy = Some (Array batch_features) ∧
           d' !! csv =
           match traverse (resolve E) (batch_files E i) with
           | Raise _ => fs w !! csv
           | Ok ids =>
               match leftover E csv (Table ids) with
               | Some c => Some c
               | None => fs w !! csv
               end
           end
  end.
Proof.
  intros Hnone Hfail. pose proof (batch_paths_differ i i) as Hne.
  cbv zeta. split; [intros p Hp1 Hp2; by apply process_batch_frame|].
  rewrite batch_try_cases in Hfail. rewrite process_batch_cases.
  rewrite bool_decide_eq_false_2 by (by rewrite Hnone; intros [? ?]).
  cbv zeta in *.
  destruct (compute_image_features E (batch_files E i)); [|done].
  destruct (write_fails E (batch_features_path i)).
  - simpl. rewrite failed_write_lookup, Hnone.
    rewrite failed_write_frame by done. split; [|done].
    by destruct (leftover E _ _).
  - destruct (traverse (resolve E) (batch_files E i)).
    + destruct (write_fails E (batch_ids_path i)); [|done].
      simpl. rewrite failed_write_frame, failed_write_lookup by done.
      by rewrite lookup_insert_eq, lookup_insert_ne by done.
    + simpl. by rewrite lookup_insert_eq, lookup_insert_ne by done.
Qed.

Lemma failed_batch_artifacts_witness :
  let E := pipeline_cut_short ["a.jpg"; "b.jpg"] ["*.jpg"] 2
             ["0000000000.csv"] in
  let w := {| fs := ∅; trace := [] |} in
  let npy := batch_features_path 0 in
  let csv := batch_ids_path 0 in
  let d' := fs (process_batch E 1 0 w).1 in
  (∀ p, p ≠ npy → p ≠ csv → d' !! p = fs w !! p) ∧
  match compute_image_features E (batch_files E 0) with
  | Raise _ => d' = fs w
  | Ok batch_features =>
      if write_fails E npy
      then d' !! npy = leftover E npy (Array batch_features) ∧
           d' !! csv = fs w !! csv
      else d' !! npy = Some (Array batch_features) ∧
           d' !! csv =
           match traverse (resolve E) (batch_files E 0) with
           | Raise _ => fs w !! csv
           | Ok ids =>
               match leftover E csv (Table ids) with
               | Some c => Some c
               | None => fs w !! csv
               end
           end
  end.
Proof.
  apply (failed_batch_artifacts
           (pipeline_cut_short ["a.jpg"; "b.jpg"] ["*.jpg"] 2
              ["0000000000.csv"])
           1 0 {| fs := ∅; trace := [] |} OSError).
  - vm_compute. reflexivity.
  - vm_compute. reflexivity.
Defined.

(** ** Batches that are already there *)

Lemma process_batch_kept E nb i j npy csv w :
  is_Some npy →
  batch_kept i npy csv w → batch_kept i npy csv (process_batch E nb j w).1.
Proof.
  intros Hsome (Hnpy & Hcsv & Htr). unfold batch_kept.
  destruct (decide (j = i)) as [->|Hji].
  - rewrite process_batch_skip by (by rewrite Hnpy). simpl.
    split; [done|split; [done|]]. intros files.
    rewrite elem_of_app, list_elem_of_singleton. intros [?|?]; [|done].
    by eapply Htr.
  - split; [|split].
    + rewrite process_batch_frame; [done| |apply batch_paths_differ].
      intros H. by apply batch_features_path_inj in H.
    + rewrite process_batch_frame; [done| |].
      * intros H. symmetry in H. by apply batch_paths_differ in H.
      * intros H. by apply batch_ids_path_inj in H.
    + intros files Hin.
      apply process_batch_encode in Hin as [Hin|[? _]]; [|done].
      by eapply Htr.
Qed.

Lemma batch_loop_kept E nb i npy csv w :
  is_Some npy →
  batch_kept i npy csv w →
  batch_kept i npy csv (batch_loop E nb w).1 ∧ (batch_loop E nb w).2 = Ok tt.
Proof.
  intros Hsome. apply for_each_invariant. intros j w' _ Hw'. split.
  - by apply process_batch_kept.
  - apply process_batch_ok.
Qed.

Lemma merge_kept E i npy csv w :
  batch_kept i npy csv w → batch_kept i npy csv (merge E w).1.
Proof.
  intros (Hnpy & Hcsv & Htr). unfold batch_kept. split; [|split].
  - rewrite merge_frame; [done|apply batch_features_path_not_merged|].
    apply (batch_features_path_not_csv i "photo_ids").
  - rewrite merge_frame; [done| |apply batch_ids_path_not_merged].
    apply (batch_ids_path_not_npy i "features").
  - by rewrite merge_trace.
Qed.

(** C6. A batch whose feature artifact exists when the pipeline starts is
    skipped: through the whole run (batch loop and merge) the encoder is
    not called for it, and its feature artifact and its identifier artifact
    (or the absence of the latter) stay as they were. *)
Theorem existing_batch_is_skipped E d i :
  is_Some (d !! batch_features_path i) →
  let w' := (run_on (process E) d).1 in
  fs w' !! batch_features_path i = d !! batch_features_path i ∧
  fs w' !! batch_ids_path i = d !! batch_ids_path i ∧
  ∀ files, Encode i files ∉ trace w'.
Proof.
  intros Hsome.
  change (batch_kept i (d !! batch_features_path i) (d !! batch_ids_path i)
            (run_on (process E) d).1).
  unfold run_on, process.
  unfold mbind at 1, M_bind at 1, emit at 1. simpl.
  set (w1 := {| fs := d; trace := [PhotosFound (length (photos_files E))] |}).
  assert (batch_kept i (d !! batch_features_path i) (d !! batch_ids_path i) w1)
    as Hw1.
  { split; [done|split; [done|]]. intros files Hin.
    by apply list_elem_of_singleton in Hin. }
  unfold mbind at 1, M_bind at 1, lift. destruct (batches E) as [nb|]; [|done].
  unfold mbind at 1, M_bind at 1.
  destruct (batch_loop_kept E nb i _ _ w1 Hsome Hw1) as [Hw2 Hok].
  destruct (batch_loop E nb w1) as [w2 r]. simpl in *. subst r.
  by apply merge_kept.
Qed.

Lemma existing_batch_is_skipped_witness :
  let E := pipeline ["a.jpg"; "b.jpg"; "c.jpg"] ["*.jpg"] 2 [] in
  let d : gmap string content :=
    {[ "0000000000.npy" := Array {| ncols := 2; rows := [[f32 0; f32 1]] |} ]} in
  let w' := (run_on (process E) d).1 in
  fs w' !! batch_features_path 0 = d !! batch_features_path 0 ∧
  fs w' !! batch_ids_path 0 = d !! batch_ids_path 0 ∧
  ∀ files, Encode 0 files ∉ trace w'.
Proof.
  apply (existing_batch_is_skipped
           (pipeline ["a.jpg"; "b.jpg"; "c.jpg"] ["*.jpg"] 2 [])
           {[ "0000000000.npy" :=
                Array {| ncols := 2; rows := [[f32 0; f32 1]] |} ]} 0).
  vm_compute. eexists. reflexivity.
Defined.

(** ** The enumeration of the photos (line 9) *)

Lemma count_occ_filter (p : string → bool) l f :
  count_occ String.string_dec (List.filter p l) f =
  if p f then count_occ String.string_dec l f else 0.
Proof.
  induction l as [|x l IH]; simpl; [by destruct (p f)|].
  destruct (p x) eqn:Hx; simpl; destruct (String.string_dec x f) as [->|Hne];
    rewrite IH; try done.
  - by rewrite Hx.
  - by rewrite Hx.
Qed.

(** C9, as the specification has it, fails: a file that matches two
    patterns of [ext_list] is listed twice. *)
Lemma photos_files_deduplicated_counterexample :
  let E := pipeline ["a.jpg"; "b.png"] ["*.jpg"; "*.*"] 2 [] in
  NoDup (photos_dir E) ∧
  photos_files E = ["a.jpg"; "a.jpg"; "b.png"] ∧
  ¬ NoDup (photos_files E).
Proof.
  split; [|split].
  - by apply (bool_decide_unpack (NoDup _)).
  - reflexivity.
  - intros H. apply NoDup_cons_1_1 in H. apply H. by left.
Qed.

(** C9, amended. The enumeration is the concatenation, pattern after
    pattern, of what each pattern matches: a file of the photos directory
    is listed once for every entry of [ext_list] that it matches. *)
Theorem photos_files_count E f :
  NoDup (photos_dir E) → f ∈ photos_dir E →
  count_occ String.string_dec (photos_files E) f =
  length (List.filter (λ e, fnmatch e f) (ext_list E)).
Proof.
  intros Hnd Hin. unfold photos_files.
  assert (count_occ String.string_dec (photos_dir E) f = 1) as Hone.
  { apply NoDup_count_occ'; [by apply NoDup_ListNoDup|].
    by apply list_elem_of_In. }
  induction (ext_list E) as [|e exts IH]; simpl; [done|].
  rewrite count_occ_app, count_occ_filter, IH, Hone.
  by destruct (fnmatch e f).
Qed.

Lemma photos_files_count_witness :
  count_occ String.string_dec
    (photos_files (pipeline ["a.jpg"; "b.png"] ["*.jpg"; "*.*"] 2 []))
    "a.jpg" = 2.
Proof.
  apply (photos_files_count
           (pipeline ["a.jpg"; "b.png"] ["*.jpg"; "*.*"] 2 []) "a.jpg").
  - by apply (bool_decide_unpack (NoDup _)).
  - by left.
Defined.

(** ** The order of file names *)

Lemma string_compare_OT s t : String.compare s t = String_as_OT.compare s t.
Proof.
  revert t. induction s as [|a s IH]; intros [|b t]; simpl; [done..|].
  rewrite IH. change (Ascii_as_OT.compare a b) with (Ascii.compare a b).
  by destruct (Ascii.compare a b).
Qed.

Lemma string_ltb_lt s t : String.ltb s t = true ↔ String_as_OT.lt s t.
Proof.
  unfold String.ltb, String_as_OT.lt. rewrite string_compare_OT.
  destruct (String_as_OT.compare s t); split; congruence.
Qed.

Lemma string_ltb_trans s t u :
  String.ltb s t = true → String.ltb t u = true → String.ltb s u = true.
Proof. rewrite !string_ltb_lt. apply (transitivity (R:=String_as_OT.lt)). Qed.

Lemma string_ltb_asym s t : String.ltb s t = true → String.ltb t s = false.
Proof.
  intros H. apply not_true_is_false. intros H'.
  apply (irreflexivity String_as_OT.lt s).
  apply string_ltb_lt. by eapply string_ltb_trans.
Qed.

Lemma string_ltb_total s t :
  String.ltb s t = false → String.ltb t s = false → s = t.
Proof.
  intros H1 H2. apply not_true_iff_false in H1, H2.
  rewrite string_ltb_lt in H1, H2.
  destruct (String_as_OT.compare_spec s t); done.
Qed.

#[local] Instance name_le_trans : Transitive name_le.
Proof.
  intros s t u Hst Htu. unfold name_le, key_le in *. simpl in *.
  apply not_true_is_false. intros Hus.
  destruct (String.ltb s t) eqn:Hlt.
  - pose proof (string_ltb_trans _ _ _ Hus Hlt). congruence.
  - pose proof (string_ltb_total _ _ Hlt Hst). congruence.
Qed.

#[local] Instance name_le_antisym : AntiSymm (=) name_le.
Proof. intros s t Hst Hts. by apply string_ltb_total. Qed.

Lemma sort_stable_names_Sorted l :
  Sorted name_le (sort_stable String.ltb id l).
Proof. apply sort_stable_Sorted, string_ltb_asym. Qed.

(** On file names [sorted] is the stable sort. *)
Lemma sorted_names l : sorted String.ltb id false l = sort_stable String.ltb id l.
Proof.
  apply (sorted_stable_sorted String.ltb id string_ltb_asym).
  intros s t u Hst Htu. by apply (name_le_trans s t u).
Qed.

Lemma listing_sort_stable pattern (d : gmap string content) :
  listing pattern d = sort_stable String.ltb id (matching pattern d).
Proof. apply sorted_names. Qed.

(** File names sort to one order, however the directory yields them. *)
Lemma sorted_names_unique l1 l2 :
  l1 ≡ₚ l2 → sorted String.ltb id false l1 = sorted String.ltb id false l2.
Proof.
  intros H. rewrite !sorted_names.
  apply (Sorted_unique name_le); try apply sort_stable_names_Sorted.
  by rewrite !sort_stable_Permutation.
Qed.

(** ** Listing the features directory *)

Lemma matching_insert_fresh pattern p c (d : gmap string content) :
  d !! p = None →
  matching pattern (<[p:=c]> d) ≡ₚ
  if fnmatch pattern p then p :: matching pattern d else matching pattern d.
Proof.
  intros Hnone. unfold matching.
  assert (map fst (map_to_list (<[p:=c]> d)) ≡ₚ p :: map fst (map_to_list d))
    as Hperm.
  { change (map fst ?l) with (fst <$> l). by rewrite map_to_list_insert. }
  assert (∀ l1 l2 : list string, l1 ≡ₚ l2 →
            List.filter (fnmatch pattern) l1 ≡ₚ List.filter (fnmatch pattern) l2)
    as Hfilter.
  { induction 1 as [|x l1 l2 _ IH|x y l|l1 l2 l3 _ IH1 _ IH2]; simpl.
    - done.
    - destruct (fnmatch pattern x); by rewrite IH.
    - destruct (fnmatch pattern x), (fnmatch pattern y);
        done || apply Permutation_swap.
    - by etrans. }
  rewrite (Hfilter _ _ Hperm). simpl. by destruct (fnmatch pattern p).
Qed.

Lemma matching_insert_other pattern p c (d : gmap string content) :
  fnmatch pattern p = false →
  matching pattern (<[p:=c]> d) ≡ₚ matching pattern d.
Proof.
  intros Hp. destruct (d !! p) as [c0|] eqn:Hd.
  - rewrite <- (insert_delete_eq d).
    rewrite <- (insert_delete_id d p c0 Hd) at 2.
    rewrite !matching_insert_fresh by apply lookup_delete_eq.
    by rewrite Hp.
  - rewrite matching_insert_fresh by done. by rewrite Hp.
Qed.

Lemma matching_elem_of pattern (d : gmap string content) p :
  p ∈ matching pattern d ↔ is_Some (d !! p) ∧ fnmatch pattern p = true.
Proof.
  unfold matching. rewrite list_elem_of_In, filter_In, <- list_elem_of_In.
  change (map fst ?l) with (fst <$> l).
  rewrite list_elem_of_fmap. split.
  - intros [([q c] & -> & Hin) Hm]. split; [|done].
    apply elem_of_map_to_list in Hin. by exists c.
  - intros [[c Hc] Hm]. split; [|done]. exists (p, c). split; [done|].
    by apply elem_of_map_to_list.
Qed.

Lemma listing_elem_of pattern (d : gmap string content) p :
  p ∈ listing pattern d ↔ is_Some (d !! p) ∧ fnmatch pattern p = true.
Proof.
  unfold listing. rewrite sorted_Permutation. apply matching_elem_of.
Qed.

(** Writing a file that a pattern does not match leaves its listing. *)
Lemma listing_insert_other pattern p c (d : gmap string content) :
  fnmatch pattern p = false →
  listing pattern (<[p:=c]> d) = listing pattern d.
Proof.
  intros Hp. apply sorted_names_unique. by apply matching_insert_other.
Qed.

Lemma traverse_ext {A B} (f g : A → result B) l :
  (∀ x, x ∈ l → f x = g x) → traverse f l = traverse g l.
Proof.
  induction l as [|x l IH]; intros H; simpl; [done|].
  rewrite (H x) by by left. rewrite IH; [done|].
  intros y Hy. apply H. by right.
Qed.

(** Saving the consolidated features does not change what the identifier
    artifacts are. *)
Lemma tables_in_insert_features a (d : gmap string content) :
  tables_in (<["features.npy" := Array a]> d) = tables_in d.
Proof.
  unfold tables_in. rewrite listing_insert_other by done.
  apply traverse_ext. intros p Hp. unfold read_table.
  rewrite lookup_insert_ne; [done|]. intros <-.
  apply listing_elem_of in Hp as [_ Hp]. done.
Qed.

(** ** What the merge step checks *)

(** The merge step, case by case, in terms of the directory it starts
    from. *)
Lemma merge_outcome E w :
  merge E w =
  match arrays_in (fs w) with
  | Raise e => (w, Raise e)
  | Ok features_list =>
      match np_concatenate features_list with
      | Raise e => (w, Raise e)
      | Ok features =>
          if write_fails E "features.npy"
          then ({| fs := failed_write E "features.npy" (Array features) (fs w);
                   trace := trace w |}, Raise OSError)
          else
            let w1 := {| fs := <["features.npy" := Array features]> (fs w);
                         trace := trace w |} in
            match tables_in (fs w) with
            | Raise e => (w1, Raise e)
            | Ok frames =>
                match pd_concat frames with
                | Raise e => (w1, Raise e)
                | Ok photo_ids =>
                    if write_fails E "photo_ids.csv"
                    then ({| fs := failed_write E "photo_ids.csv"
                                     (Table photo_ids) (fs w1);
                             trace := trace w |}, Raise OSError)
                    else ({| fs := <["photo_ids.csv" := Table photo_ids]>
                                     (fs w1);
                             trace := trace w |}, Ok tt)
                end
            end
      end
  end.
Proof.
  rewrite merge_cases. cbv zeta.
  destruct (arrays_in (fs w)) as [features_list|]; [|done].
  destruct (np_concatenate features_list) as [features|]; [|done].
  by rewrite tables_in_insert_features.
Qed.

(** C2, as the specification has it, fails: batch 1 has a feature artifact
    and no identifier artifact; the merge succeeds and writes three rows
    beside two identifiers. *)
Lemma merge_corrupt_batch_counterexample :
  let d : gmap string content :=
    {[ "0000000000.npy" :=
         Array {| ncols := 2; rows := [[f32 1; f32 0]; [f32 0; f32 1]] |};
       "0000000000.csv" := Table ["/photos/a.jpg"; "/photos/b.jpg"];
       "0000000001.npy" := Array {| ncols := 2; rows := [[f32 1; f32 1]] |} ]} in
  let after := run_on (merge (pipeline [] [] 2 [])) d in
  d !! batch_features_path 1 ≠ None ∧ d !! batch_ids_path 1 = None ∧
  after.2 = Ok tt ∧
  fs after.1 !! "features.npy" =
    Some (Array {| ncols := 2;
                   rows := [[f32 1; f32 0]; [f32 0; f32 1]; [f32 1; f32 1]] |}) ∧
  fs after.1 !! "photo_ids.csv" =
    Some (Table ["/photos/a.jpg"; "/photos/b.jpg"]).
Proof. repeat split; vm_compute; congruence. Qed.

(** C2, amended. The merge step does not compare feature artifacts with
    identifier artifacts: when the [*.npy] files load and have one width,
    the [*.csv] files load and there is one at least, and both files can
    be written, it succeeds, and it writes the concatenation of the arrays
    and the concatenation of the identifier lists, each in the order of the
    file names, however the two line up. *)
Theorem merge_concatenates_unchecked E w features_list features frames :
  arrays_in (fs w) = Ok features_list →
  np_concatenate features_list = Ok features →
  tables_in (fs w) = Ok frames → frames ≠ [] →
  write_fails E "features.npy" = false →
  write_fails E "photo_ids.csv" = false →
  merge E w =
  ({| fs := <["photo_ids.csv" := Table (concat frames)]>
              (<["features.npy" := Array features]> (fs w));
      trace := trace w |}, Ok tt).
Proof.
  intros Harr Hcat Htab Hne Hw1 Hw2.
  rewrite merge_outcome, Harr, Hcat, Hw1, Htab. cbv zeta.
  destruct frames; [done|]. simpl. by rewrite Hw2.
Qed.

Lemma merge_concatenates_unchecked_witness :
  let E := pipeline [] [] 2 [] in
  let w :=
    {| fs := {[ "0000000000.npy" :=
                  Array {| ncols := 1; rows := [[f32 1]; [f32 2]] |};
                "0000000000.csv" := Table ["/photos/a.jpg"] ]};
       trace := [] |} in
  merge E w =
  ({| fs := <["photo_ids.csv" := Table (concat [["/photos/a.jpg"]])]>
              (<["features.npy" :=
                   Array {| ncols := 1; rows := [[f32 1]; [f32 2]] |}]> (fs w));
      trace := trace w |}, Ok tt).
Proof.
  intros E w.
  apply (merge_concatenates_unchecked E w
           [{| ncols := 1; rows := [[f32 1]; [f32 2]] |}]
           {| ncols := 1; rows := [[f32 1]; [f32 2]] |}
           [["/photos/a.jpg"]]).
  - vm_compute. reflexivity.
  - vm_compute. reflexivity.
  - vm_compute. reflexivity.
  - congruence.
  - reflexivity.
  - reflexivity.
Defined.

(** X20. Where the merge step does fail for want of identifier artifacts, with
    no [*.csv] file at all, the consolidated features have been written
    by then and stay. *)
Lemma merge_no_csv E w features_list features :
  arrays_in (fs w) = Ok features_list →
  np_concatenate features_list = Ok features →
  write_fails E "features.npy" = false →
  (∀ p, is_Some (fs w !! p) → fnmatch "*.csv" p = false) →
  merge E w =
  ({| fs := <["features.npy" := Array features]> (fs w); trace := trace w |},
   Raise ValueError).
Proof.
  intros Harr Hcat Hw1 Hnone. rewrite merge_outcome, Harr, Hcat, Hw1.
  assert (listing "*.csv" (fs w) = []) as Hl.
  { apply elem_of_nil_inv. intros p Hp.
    apply listing_elem_of in Hp as [Hsome Hp].
    rewrite (Hnone p Hsome) in Hp. done. }
  unfold tables_in. by rewrite Hl.
Qed.

(** ** Merging with nothing to merge, and merging again *)

(** An element that is after all the others is inserted at the end. *)
Lemma insert_sorted_last {A K} (ltb : K → K → bool) (key : A → K) x l :
  Forall (λ y, ltb (key y) (key x) = true) l →
  insert_sorted ltb key x l = l ++ [x].
Proof.
  induction 1 as [|y l Hy _ IH]; simpl; [done|]. by rewrite Hy, IH.
Qed.

(** A new file whose name is after all the names listed comes last. *)
Lemma listing_insert_last pattern p c (d : gmap string content) :
  d !! p = None → fnmatch pattern p = true →
  Forall (λ q, String.ltb q p = true) (listing pattern d) →
  listing pattern (<[p:=c]> d) = listing pattern d ++ [p].
Proof.
  intros Hnone Hp Hlast. rewrite listing_sort_stable in Hlast.
  unfold listing.
  rewrite (sorted_names_unique _ (p :: matching pattern d)).
  - rewrite !sorted_names. simpl. by apply (insert_sorted_last String.ltb id).
  - rewrite matching_insert_fresh by done. by rewrite Hp.
Qed.

Lemma traverse_snoc {A B} (f : A → result B) l x ys y :
  traverse f l = Ok ys → f x = Ok y → traverse f (l ++ [x]) = Ok (ys ++ [y]).
Proof.
  revert ys. induction l as [|z l IH]; intros ys Hl Hx; simpl in *.
  - injection Hl as <-. by rewrite Hx.
  - destruct (f z); [|done]. destruct (traverse f l) as [zs|]; [|done].
    injection Hl as <-. by rewrite (IH zs).
Qed.

Lemma np_concatenate_snoc arrays features :
  np_concatenate arrays = Ok features →
  np_concatenate (arrays ++ [features]) =
  Ok {| ncols := ncols features; rows := rows features ++ rows features |}.
Proof.
  destruct arrays as [|a rest]; [done|]. simpl.
  destruct (forallb _ rest) eqn:Hall; [|done]. intros [= <-]. simpl.
  rewrite forallb_app, Hall. simpl. rewrite Nat.eqb_refl. simpl.
  f_equal. f_equal. rewrite map_app, concat_app. simpl.
  by rewrite app_nil_r, app_assoc.
Qed.

Lemma pd_concat_snoc frames :
  frames ≠ [] →
  pd_concat (frames ++ [concat frames]) = Ok (concat frames ++ concat frames).
Proof.
  destruct frames as [|ids frames]; [done|]. intros _. simpl.
  rewrite concat_app. simpl. by rewrite app_nil_r, app_assoc.
Qed.

(** The file names of the batches are before those of the consolidated
    artifacts: they start with a digit. *)
Lemma fmt_010d_before i suffix name :
  String.ltb (fmt_010d i +:+ suffix) (String "f" name) = true ∧
  String.ltb (fmt_010d i +:+ suffix) (String "p" name) = true.
Proof.
  unfold fmt_010d. destruct (10 - String.length (decimal i)) as [|k]; simpl.
  - unfold decimal. destruct (Nat.to_uint i); by split.
  - by split.
Qed.

Lemma batch_features_path_before_merged i :
  String.ltb (batch_features_path i) "features.npy" = true.
Proof. apply fmt_010d_before. Qed.

Lemma batch_ids_path_before_merged i :
  String.ltb (batch_ids_path i) "photo_ids.csv" = true.
Proof. apply fmt_010d_before. Qed.

(** Merging a second time, over a directory that held no consolidated
    artifacts before the first merge and whose [*.npy] and [*.csv] names
    sort before [features.npy] and [photo_ids.csv] (as the names of batch
    artifacts do): the first merge's output is read back as one more
    batch, and every row and every identifier is written twice. *)
Lemma merge_twice_doubles E w features_list features frames :
  fs w !! "features.npy" = None → fs w !! "photo_ids.csv" = None →
  Forall (λ p, String.ltb p "features.npy" = true) (listing "*.npy" (fs w)) →
  Forall (λ p, String.ltb p "photo_ids.csv" = true) (listing "*.csv" (fs w)) →
  arrays_in (fs w) = Ok features_list →
  np_concatenate features_list = Ok features →
  tables_in (fs w) = Ok frames → frames ≠ [] →
  write_fails E "features.npy" = false →
  write_fails E "photo_ids.csv" = false →
  let once := (merge E w).1 in
  merge E once =
  ({| fs := <["photo_ids.csv" := Table (concat frames ++ concat frames)]>
              (<["features.npy" :=
                   Array {| ncols := ncols features;
                            rows := rows features ++ rows features |}]>
                 (fs once));
      trace := trace w |}, Ok tt).
Proof.
  intros Hnf Hni Hnpy Hcsv Harr Hcat Htab Hne Hw1 Hw2.
  assert (pd_concat frames = Ok (concat frames)) as Hids
    by (by destruct frames).
  rewrite merge_outcome, Harr, Hcat, Hw1, Htab, Hids, Hw2. cbv zeta. simpl.
  set (d1 := <["features.npy" := Array features]> (fs w)).
  set (d2 := <["photo_ids.csv" := Table (concat frames)]> d1).
  assert (arrays_in d2 = Ok (features_list ++ [features])) as Harr2.
  { unfold arrays_in, d2. rewrite listing_insert_other by done.
    unfold d1. rewrite listing_insert_last by done.
    apply traverse_snoc.
    - rewrite <- Harr. apply traverse_ext. intros p Hp. unfold read_array.
      apply listing_elem_of in Hp as [[c Hc] Hp].
      rewrite !lookup_insert_ne; [done|congruence|].
      intros <-. done.
    - unfold read_array. rewrite lookup_insert_ne by done.
      by rewrite lookup_insert_eq. }
  assert (tables_in d2 = Ok (frames ++ [concat frames])) as Htab2.
  { unfold tables_in, d2. rewrite listing_insert_last.
    - apply traverse_snoc.
      + rewrite <- Htab. unfold d1. rewrite listing_insert_other by done.
        apply traverse_ext. intros p Hp. unfold read_table.
        apply listing_elem_of in Hp as [[c Hc] Hp].
        rewrite !lookup_insert_ne; [done| |congruence].
        intros <-. done.
      + unfold read_table. by rewrite lookup_insert_eq.
    - unfold d1. by rewrite lookup_insert_ne.
    - done.
    - unfold d1. by rewrite listing_insert_other. }
  rewrite merge_outcome. simpl.
  rewrite Harr2, (np_concatenate_snoc _ _ Hcat), Hw1, Htab2.
  by rewrite pd_concat_snoc, Hw2.
Qed.

Lemma only_batches_before_merged d pattern name :
  only_batches d →
  Forall (λ p, String.ltb p (String "f" name) = true ∧
               String.ltb p (String "p" name) = true) (listing pattern d).
Proof.
  intros Hd. apply Forall_forall. intros p Hp.
  apply listing_elem_of in Hp as [Hsome _].
  destruct (Hd p Hsome) as [i [-> | ->]]; apply fmt_010d_before.
Qed.

Lemma only_batches_not_merged d :
  only_batches d → d !! "features.npy" = None ∧ d !! "photo_ids.csv" = None.
Proof.
  intros Hd. split; apply eq_None_not_Some; intros Hsome;
    destruct (Hd _ Hsome) as [i [H | H]]; symmetry in H; revert H.
  - apply batch_features_path_not_merged.
  - apply (batch_ids_path_not_npy i "features").
  - apply (batch_features_path_not_csv i "photo_ids").
  - apply batch_ids_path_not_merged.
Qed.

(** X21. Over batch artifacts alone, a merge that succeeds and is run again
    writes every row and every identifier twice. *)
Lemma merge_again_on_batches E w features_list features frames :
  only_batches (fs w) →
  arrays_in (fs w) = Ok features_list →
  np_concatenate features_list = Ok features →
  tables_in (fs w) = Ok frames → frames ≠ [] →
  write_fails E "features.npy" = false →
  write_fails E "photo_ids.csv" = false →
  let once := (merge E w).1 in
  let twice := (merge E once).1 in
  fs once !! "features.npy" = Some (Array features) ∧
  fs once !! "photo_ids.csv" = Some (Table (concat frames)) ∧
  fs twice !! "features.npy" =
    Some (Array {| ncols := ncols features;
                   rows := rows features ++ rows features |}) ∧
  fs twice !! "photo_ids.csv" = Some (Table (concat frames ++ concat frames)).
Proof.
  intros Hd Harr Hcat Htab Hne Hw1 Hw2.
  destruct (only_batches_not_merged _ Hd) as [Hnf Hni].
  assert (pd_concat frames = Ok (concat frames)) as Hids
    by (by destruct frames).
  cbv zeta.
  rewrite (merge_twice_doubles E w features_list features frames); try done.
  - rewrite merge_outcome, Harr, Hcat, Hw1, Htab, Hids, Hw2. simpl.
    repeat split; by simplify_map_eq.
  - eapply Forall_impl; [by apply (only_batches_before_merged _ _ "eatures.npy")|].
    by intros p [? _].
  - eapply Forall_impl; [by apply (only_batches_before_merged _ _ "hoto_ids.csv")|].
    by intros p [_ ?].
Qed.

(** With no [*.npy] file in the directory the merge step raises and
    writes nothing. *)
Lemma merge_no_npy E w :
  (∀ p, is_Some (fs w !! p) → fnmatch "*.npy" p = false) →
  merge E w = (w, Raise ValueError).
Proof.
  intros Hnone. rewrite merge_cases.
  assert (listing "*.npy" (fs w) = []) as Hl.
  { apply elem_of_nil_inv. intros p Hp.
    apply listing_elem_of in Hp as [Hsome Hp].
    rewrite (Hnone p Hsome) in Hp. done. }
  unfold arrays_in. by rewrite Hl.
Qed.

(** C10. No per-batch feature artifact exists, but the consolidated
    artifacts of an earlier run are there: the merge step loads them
    through [*.npy] and [*.csv], raises nothing, and writes them again. *)
Theorem merge_without_batches_old_index :
  let d : gmap string content :=
    {[ "features.npy" := Array {| ncols := 2; rows := [[f32 1; f32 0]] |};
       "photo_ids.csv" := Table ["/photos/a.jpg"] ]} in
  (∀ i, d !! batch_features_path i = None) ∧
  run_on (merge (pipeline [] ["*.jpg"] 2 [])) d =
    ({| fs := d; trace := [] |}, Ok tt).
Proof.
  split.
  - intros i. rewrite lookup_insert_ne.
    + apply lookup_singleton_ne. intros H. symmetry in H.
      by apply (batch_features_path_not_csv i "photo_ids") in H.
    + intros H. symmetry in H. by apply batch_features_path_not_merged in H.
  - vm_compute. reflexivity.
Qed.

(** C1. The same per-batch artifacts, merged once and merged again: the
    second merge reads the consolidated artifacts of the first as if they
    were batches, and every row and identifier comes out twice. *)
Theorem merge_reads_previous_index :
  let E := pipeline [] ["*.jpg"] 2 [] in
  let batch_artifacts : gmap string content :=
    {[ "0000000000.npy" :=
         Array {| ncols := 2; rows := [[f32 1; f32 0]; [f32 0; f32 1]] |};
       "0000000000.csv" := Table ["/photos/a.jpg"; "/photos/b.jpg"] ]} in
  let once := fs (run_on (merge E) batch_artifacts).1 in
  let twice := fs (run_on (merge E) once).1 in
  (∀ i, once !! batch_features_path i = batch_artifacts !! batch_features_path i
        ∧ once !! batch_ids_path i = batch_artifacts !! batch_ids_path i) ∧
  once !! "features.npy" =
    Some (Array {| ncols := 2; rows := [[f32 1; f32 0]; [f32 0; f32 1]] |}) ∧
  once !! "photo_ids.csv" = Some (Table ["/photos/a.jpg"; "/photos/b.jpg"]) ∧
  twice !! "features.npy" =
    Some (Array {| ncols := 2;
                   rows := [[f32 1; f32 0]; [f32 0; f32 1]; [f32 1; f32 0]; [f32 0; f32 1]] |}) ∧
  twice !! "photo_ids.csv" =
    Some (Table ["/photos/a.jpg"; "/photos/b.jpg";
                 "/photos/a.jpg"; "/photos/b.jpg"]).
Proof.
  split; [|repeat split; vm_compute; reflexivity].
  intros i. unfold run_on. split.
  - apply merge_frame; [apply batch_features_path_not_merged|].
    apply (batch_features_path_not_csv i "photo_ids").
  - apply merge_frame; [|apply batch_ids_path_not_merged].
    apply (batch_ids_path_not_npy i "features").
Qed.

(** * Further properties of the code *)

(** ** One query ([search.py], lines 15-22) *)

(** X1. The ranking is exhaustive: it lists every row of the index, once. *)
Theorem ranking_lists_every_row_once q M rk :
  ranking q M = Ok rk →
  NoDup rk ∧ length rk = shape0 M ∧ ∀ r, r ∈ rk ↔ r < shape0 M.
Proof.
  intros Hrk. apply ranking_Permutation in Hrk. split; [|split].
  - rewrite Hrk. apply NoDup_seq.
  - by rewrite Hrk, length_seq.
  - intros r. rewrite Hrk, elem_of_seq. lia.
Qed.

Lemma ranking_lists_every_row_once_witness :
  NoDup [1; 0; 2] ∧ length [1; 0; 2] = 3 ∧ ∀ r, r ∈ [1; 0; 2] ↔ r < 3.
Proof.
  apply (ranking_lists_every_row_once [f32 1; f32 0]
           {| ncols := 2; rows := [[f32 1; f32 5]; [f32 2; f32 0]; [f32 1; f32 7]] |}).
  vm_compute. reflexivity.
Defined.

Lemma ranking_descending_witness :
  before 1 0 [1; 0; 2].
Proof.
  apply (ranking_descending [f32 1; f32 0]
           {| ncols := 2; rows := [[f32 1; f32 5]; [f32 2; f32 0]; [f32 1; f32 7]] |}
           [1; 0; 2] 1 0 [f32 2; f32 0] [f32 1; f32 5]).
  - vm_compute. reflexivity.
  - intros v Hv. repeat (apply elem_of_cons in Hv as [->|Hv]);
      [reflexivity..|by apply elem_of_nil in Hv].
  - reflexivity.
  - reflexivity.
  - vm_compute. reflexivity.
Defined.

(** X3. Within the corpus the query succeeds and prints [display_num] lines:
    the identifiers at the first [display_num] rows of the ranking. *)
Theorem query_prints_top_results E ix q tf rk :
  compute_text_feature E q = Ok tf →
  ranking tf (photo_features ix) = Ok rk →
  length (photo_ids ix) = shape0 (photo_features ix) →
  display_num E ≤ shape0 (photo_features ix) →
  ∃ ids,
    Forall2 (λ idx photo_id, photo_ids ix !! idx = Some photo_id)
      (take (display_num E) rk) ids ∧
    length ids = display_num E ∧
    query E ix q = (map Print ids, Ok tt).
Proof.
  intros Htf Hrk Hal HK.
  pose proof (ranking_Permutation _ _ _ Hrk) as Hperm.
  exists (map (λ idx, photo_ids ix !!! idx) (take (display_num E) rk)).
  split; [|split].
  - change (map ?f ?l) with (f <$> l). apply Forall2_fmap_r, Forall_Forall2_diag.
    apply Forall_forall. intros idx Hin. apply list_lookup_lookup_total_lt.
    apply elem_of_take in Hin as (i & Hi & _).
    apply list_elem_of_lookup_2 in Hi. rewrite Hperm, elem_of_seq in Hi. lia.
  - rewrite length_map, length_take. apply Permutation_length in Hperm.
    rewrite length_seq in Hperm. lia.
  - rewrite (query_answers E ix q tf rk) by done.
    rewrite decide_True by done. by rewrite map_map.
Qed.

Lemma query_prints_top_results_witness :
  ∃ ids,
    Forall2 (λ idx photo_id, photo_ids four_photos !! idx = Some photo_id)
      (take (display_num (asking_for 2)) [0; 2; 3; 1]) ids ∧
    length ids = display_num (asking_for 2) ∧
    query (asking_for 2) four_photos "cat" = (map Print ids, Ok tt).
Proof.
  apply (query_prints_top_results (asking_for 2) four_photos "cat"
           [f32 1; f32 0] [0; 2; 3; 1]).
  - reflexivity.
  - vm_compute. reflexivity.
  - reflexivity.
  - vm_compute. lia.
Defined.

(** The printing loop, whatever the index: it prints identifiers of the
    index only, one per value of [i] at most, and if it fails it is by an
    [IndexError]. *)
Lemma print_results_safe best ids range out r :
  print_results best ids range = (out, r) →
  length out ≤ length range ∧
  Forall (λ ev, ∃ photo_id, ev = Print photo_id ∧ photo_id ∈ ids) out ∧
  (r = Ok tt ∨ r = Raise IndexError).
Proof.
  revert out r. induction range as [|i range IH]; intros out r; simpl.
  - intros [= <- <-]. split; [done|]. split; [constructor|by left].
  - destruct (best !! i) as [[sim idx]|].
    2:{ intros [= <- <-]. split; [simpl; lia|].
        split; [constructor|by right]. }
    destruct (ids !! idx) as [photo_id|] eqn:Hid.
    2:{ intros [= <- <-]. split; [simpl; lia|].
        split; [constructor|by right]. }
    destruct (print_results best ids range) as [out' r'].
    intros [= <- <-]. destruct (IH out' r' eq_refl) as (Hlen & Hall & Hr).
    split; [simpl; lia|]. split; [|done]. constructor; [|done].
    exists photo_id. split; [done|]. by eapply list_elem_of_lookup_2.
Qed.

(** X4. A query never prints more than [display_num] lines, prints nothing
    but identifiers of the index, and, when it fails, fails with the error
    of the text encoder, with a [ValueError] (the widths differ) or with an
    [IndexError]. *)
Theorem query_prints_only_identifiers E ix q :
  length (query E ix q).1 ≤ display_num E ∧
  Forall (λ ev, ∃ photo_id, ev = Print photo_id ∧ photo_id ∈ photo_ids ix)
    (query E ix q).1 ∧
  match (query E ix q).2 with
  | Ok _ => True
  | Raise e =>
      compute_text_feature E q = Raise e ∨ e = ValueError ∨ e = IndexError
  end.
Proof.
  unfold query. destruct (compute_text_feature E q) as [tf|e]; simpl.
  2:{ split; [lia|]. split; [constructor|by left]. }
  destruct (similarities tf (photo_features ix)) as [sims|e] eqn:Hs; simpl.
  2:{ split; [lia|]. split; [constructor|]. right. left.
      unfold similarities in Hs. case_decide; congruence. }
  destruct (print_results _ _ _) as [out r] eqn:Hp.
  apply print_results_safe in Hp as (Hlen & Hall & Hr).
  rewrite length_seq in Hlen. simpl. split; [done|]. split; [done|].
  destruct Hr as [-> | ->]; [done|]. by right; right.
Qed.

(** A printing loop that ends well has found every entry it asked for. *)
Lemma print_results_ok_inv best ids k : ∀ a out,
  print_results best ids (seq a k) = (out, Ok tt) →
  ∀ i, a ≤ i < a + k →
       ∃ sim idx, best !! i = Some (sim, idx) ∧ is_Some (ids !! idx).
Proof.
  induction k as [|k IH]; intros a out Hp i Hi; [lia|]. simpl in Hp.
  destruct (best !! a) as [[sim idx]|] eqn:Hbest; [|done].
  destruct (ids !! idx) as [photo_id|] eqn:Hid; [|done].
  destruct (print_results best ids (seq (S a) k)) as [out' r'] eqn:Hrest.
  injection Hp as _ ->.
  destruct (decide (i = a)) as [->|Hne].
  - exists sim, idx. by rewrite Hid.
  - apply (IH (S a) out' Hrest). lia.
Qed.

(** X5. An index with fewer identifiers than rows cannot be listed in full:
    asking for all the rows (or more) ends in an [IndexError]. *)
Theorem query_short_identifier_list E ix q tf :
  compute_text_feature E q = Ok tf →
  length tf = ncols (photo_features ix) →
  length (photo_ids ix) < shape0 (photo_features ix) →
  shape0 (photo_features ix) ≤ display_num E →
  (query E ix q).2 = Raise IndexError.
Proof.
  intros Htf Hlen Hshort HK. unfold query. rewrite Htf.
  destruct (similarities tf (photo_features ix)) as [sims|e] eqn:Hs.
  2:{ unfold similarities in Hs. by rewrite decide_True in Hs. }
  pose proof (best_photos_fmap_snd _ _ _ Hs) as Hrk.
  apply ranking_Permutation in Hrk.
  destruct (print_results _ _ _) as [out r] eqn:Hp. simpl.
  destruct (print_results_safe _ _ _ _ _ Hp) as (_ & _ & [-> | ->]); [|done].
  exfalso.
  assert (length (photo_ids ix) ∈
            map snd (best_photos sims (shape0 (photo_features ix)))) as Hin.
  { rewrite Hrk, elem_of_seq. lia. }
  change (map snd ?l) with (snd <$> l) in Hin.
  apply list_elem_of_fmap in Hin as ([sim idx] & Hidx & Hin). simpl in Hidx.
  apply list_elem_of_lookup in Hin as [i Hi].
  assert (i < shape0 (photo_features ix)) as Hi'.
  { apply lookup_lt_Some in Hi. apply Permutation_length in Hrk.
    rewrite length_map, length_seq in Hrk. lia. }
  destruct (print_results_ok_inv _ _ _ _ _ Hp i) as (sim' & idx' & Hi2 & Hsome);
    [lia|].
  rewrite Hi in Hi2. injection Hi2 as <- <-.
  apply lookup_lt_is_Some in Hsome. lia.
Qed.

Lemma query_short_identifier_list_witness :
  (query (asking_for 4)
     {| photo_features := photo_features four_photos;
        photo_ids := ["/p/a.jpg"; "/p/b.jpg"; "/p/c.jpg"] |} "cat").2 =
  Raise IndexError.
Proof.
  apply (query_short_identifier_list (asking_for 4)
           {| photo_features := photo_features four_photos;
              photo_ids := ["/p/a.jpg"; "/p/b.jpg"; "/p/c.jpg"] |}
           "cat" [f32 1; f32 0]).
  - reflexivity.
  - reflexivity.
  - vm_compute. lia.
  - vm_compute. lia.
Defined.

(** ** The session ([search.py], lines 13-24) *)

(** X6. An empty line ends the session at once: the queries before it are
    answered, and what follows it on the input is not read. *)
Theorem session_exits_on_empty_line E ix qs rest :
  Forall (λ q, q ≠ "" ∧ (query E ix q).2 = Ok tt) qs →
  query_loop E ix (qs ++ "" :: rest) = (answers E ix qs ++ [Prompt], Exit).
Proof. intros Hqs. by rewrite query_loop_app. Qed.

Lemma session_exits_on_empty_line_witness :
  query_loop (asking_for 2) four_photos (["cat"; "dog"] ++ "" :: ["cow"]) =
  (answers (asking_for 2) four_photos ["cat"; "dog"] ++ [Prompt], Exit).
Proof.
  apply (session_exits_on_empty_line (asking_for 2) four_photos
           ["cat"; "dog"] ["cow"]).
  repeat constructor; vm_compute; congruence.
Defined.

(** ** Partitioning into batches ([process.py], lines 13 and 24) *)

(** The number of batches is the ceiling of the quotient. *)
Lemma batches_spec E nb :
  batches E = Ok nb →
  0 < batch_size E ∧
  length (photos_files E) ≤ nb * batch_size E ∧
  nb * batch_size E < length (photos_files E) + batch_size E.
Proof.
  unfold batches. destruct (batch_size E =? 0) eqn:Hbs; [done|].
  apply Nat.eqb_neq in Hbs. intros [= <-].
  set (n := length (photos_files E)). set (b := batch_size E) in *.
  pose proof (Nat.div_mod (n + b - 1) b Hbs) as Hdiv.
  pose proof (Nat.mod_upper_bound (n + b - 1) b Hbs) as Hmod.
  nia.
Qed.

(** Consecutive slices of one width, put end to end. *)
Lemma slices_concat {A} (l : list A) bs n : ∀ a,
  concat (map (λ i, take bs (drop (i * bs) l)) (seq a n)) =
  take (n * bs) (drop (a * bs) l).
Proof.
  induction n as [|n IH]; intros a; simpl; [done|].
  rewrite IH. replace (S a * bs) with (a * bs + bs) by lia.
  rewrite <- drop_drop. apply take_take_drop.
Qed.

(** X8. The batches partition the enumeration: put end to end, in the order of
    their indices, they are the list of files. *)
Theorem batches_cover_photos_files E nb :
  batches E = Ok nb →
  concat (map (batch_files E) (seq 0 nb)) = photos_files E.
Proof.
  intros Hnb. apply batches_spec in Hnb as (_ & Hle & _).
  unfold batch_files. rewrite (slices_concat (photos_files E)). simpl.
  rewrite drop_0. by apply take_ge.
Qed.

Lemma batches_cover_photos_files_witness :
  let E := pipeline ["a.jpg"; "b.jpg"; "c.jpg"; "d.jpg"; "e.jpg"] ["*.jpg"] 2 [] in
  concat (map (batch_files E) (seq 0 3)) = photos_files E.
Proof.
  apply (batches_cover_photos_files
           (pipeline ["a.jpg"; "b.jpg"; "c.jpg"; "d.jpg"; "e.jpg"]
              ["*.jpg"] 2 []) 3).
  reflexivity.
Defined.

(** X9. Every batch but the last is full, the last one is not empty, and there
    is no batch at all exactly when no file was found. *)
Theorem batch_sizes E nb :
  batches E = Ok nb →
  (nb = 0 ↔ photos_files E = []) ∧
  ∀ i, i < nb →
       0 < length (batch_files E i) ≤ batch_size E ∧
       (S i < nb → length (batch_files E i) = batch_size E).
Proof.
  intros Hnb. apply batches_spec in Hnb as (Hbs & Hle & Hlt). split.
  - rewrite <- length_zero_iff_nil. split; intros H; [|nia].
    rewrite H in Hle. simpl in Hle. lia.
  - intros i Hi. unfold batch_files. rewrite length_take, length_drop. nia.
Qed.

Lemma batch_sizes_witness :
  let E := pipeline ["a.jpg"; "b.jpg"; "c.jpg"; "d.jpg"; "e.jpg"] ["*.jpg"] 2 [] in
  (3 = 0 ↔ photos_files E = []) ∧
  ∀ i, i < 3 →
       0 < length (batch_files E i) ≤ batch_size E ∧
       (S i < 3 → length (batch_files E i) = batch_size E).
Proof.
  apply (batch_sizes
           (pipeline ["a.jpg"; "b.jpg"; "c.jpg"; "d.jpg"; "e.jpg"]
              ["*.jpg"] 2 []) 3).
  reflexivity.
Defined.

(** ** The batch loop as a whole ([process.py], lines 16-33) *)

(** A counting loop whose body never raises, with an invariant that
    follows the counter. *)
Lemma for_each_seq_invariant (Inv : nat → world → Prop) (body : nat → M unit) n :
  ∀ a w,
  Inv a w →
  (∀ i w', a ≤ i < a + n → Inv i w' →
           Inv (S i) (body i w').1 ∧ (body i w').2 = Ok tt) →
  Inv (a + n) (for_each (seq a n) body w).1 ∧
  (for_each (seq a n) body w).2 = Ok tt.
Proof.
  induction n as [|n IH]; intros a w Hw Hbody; simpl.
  - by rewrite Nat.add_0_r.
  - unfold mbind, M_bind.
    destruct (Hbody a w) as [Hw' Hok]; [lia|done|].
    destruct (body a w) as [w' r]. simpl in *. subst r.
    replace (a + S n) with (S a + n) by lia.
    apply IH; [done|]. intros i w'' Hi. apply Hbody. lia.
Qed.

(** What a batch adds to the trace starts with its progress line. *)
Lemma process_batch_trace E nb i w :
  ∃ tl, trace (process_batch E nb i w).1 =
        trace w ++ ProcessingBatch (i + 1) nb :: tl.
Proof.
  rewrite process_batch_cases. cbv zeta.
  repeat case_match; simpl; rewrite <- ?app_assoc; simpl; by eexists.
Qed.

(** The batch loop raises nothing. *)
Lemma batch_loop_ok E nb w : (batch_loop E nb w).2 = Ok tt.
Proof.
  apply (for_each_invariant (λ _, True) (process_batch E nb) (seq 0 nb));
    [|done].
  intros i w' _ _. split; [done|apply process_batch_ok].
Qed.

(** X10. Whatever fails inside a batch, the loop goes through all the batches
    and ends without an error: every batch is announced. *)
Theorem batch_loop_completes E nb w :
  (batch_loop E nb w).2 = Ok tt ∧
  ∀ i, i < nb → ProcessingBatch (i + 1) nb ∈ trace (batch_loop E nb w).1.
Proof.
  unfold batch_loop.
  destruct (for_each_seq_invariant
              (λ k w', ∀ i, i < k → ProcessingBatch (i + 1) nb ∈ trace w')
              (process_batch E nb) nb 0 w) as [Hinv Hok].
  - intros i Hi. lia.
  - intros k w' _ Hw'. split; [|apply process_batch_ok].
    destruct (process_batch_trace E nb k w') as [tl ->].
    intros i Hi. rewrite elem_of_app, elem_of_cons.
    destruct (decide (i = k)) as [->|Hne]; [by right; left|].
    left. apply Hw'. lia.
  - done.
Qed.

(** A stretch of batches whose feature artifacts are all there. *)
Lemma for_each_skips E nb n : ∀ a w,
  (∀ i, a ≤ i < a + n → is_Some (fs w !! batch_features_path i)) →
  for_each (seq a n) (process_batch E nb) w =
  ({| fs := fs w;
      trace := trace w ++ map (λ i, ProcessingBatch (i + 1) nb) (seq a n) |},
   Ok tt).
Proof.
  induction n as [|n IH]; intros a w Hall; simpl.
  - rewrite app_nil_r. by destruct w.
  - unfold mbind, M_bind. rewrite process_batch_skip by (apply Hall; lia).
    rewrite IH by (intros i Hi; apply Hall; lia). simpl.
    by rewrite <- app_assoc.
Qed.

(** X11. When the feature artifacts of all the batches are there, the loop
    prints its progress lines and does nothing else: no call of the
    encoder, no change to the directory. *)
Theorem batch_loop_all_present E nb w :
  (∀ i, i < nb → is_Some (fs w !! batch_features_path i)) →
  batch_loop E nb w =
  ({| fs := fs w;
      trace := trace w ++ map (λ i, ProcessingBatch (i + 1) nb) (seq 0 nb) |},
   Ok tt).
Proof. intros Hall. apply for_each_skips. intros i Hi. apply Hall. lia. Qed.

Lemma batch_loop_all_present_witness :
  let E := pipeline ["a.jpg"; "b.jpg"] ["*.jpg"] 2 [] in
  let w := {| fs := {[ "0000000000.npy" :=
                         Array {| ncols := 2; rows := [[f32 0; f32 1]] |} ]};
              trace := [] |} in
  batch_loop E 1 w =
  ({| fs := fs w;
      trace := trace w ++ map (λ i, ProcessingBatch (i + 1) 1) (seq 0 1) |},
   Ok tt).
Proof.
  intros E w. apply (batch_loop_all_present E 1 w).
  intros i Hi. assert (i = 0) as -> by lia. vm_compute. eexists. reflexivity.
Defined.

(** ** What the pipeline leaves alone ([process.py]) *)

Lemma process_batch_keeps_files E nb i w p :
  is_Some (fs w !! p) → is_Some (fs (process_batch E nb i w).1 !! p).
Proof.
  intros Hp. rewrite process_batch_cases. cbv zeta.
  repeat case_match; simpl;
    repeat first [apply failed_write_is_Some
                 |rewrite lookup_insert_is_Some'; right]; done.
Qed.

Lemma merge_keeps_files E w p :
  is_Some (fs w !! p) → is_Some (fs (merge E w).1 !! p).
Proof.
  intros Hp. rewrite merge_cases. cbv zeta.
  repeat case_match; simpl;
    repeat first [apply failed_write_is_Some
                 |rewrite lookup_insert_is_Some'; right]; done.
Qed.

(** The whole script: as the batch loop never raises, the merge step is
    always reached, unless the batch size is zero. *)
Lemma process_cases E w :
  process E w =
  let w1 := {| fs := fs w;
               trace := trace w ++ [PhotosFound (length (photos_files E))] |} in
  match batches E with
  | Raise e => (w1, Raise e)
  | Ok nb => merge E (batch_loop E nb w1).1
  end.
Proof.
  unfold process. unfold mbind at 1, M_bind at 1, emit at 1. cbv zeta.
  unfold mbind at 1, M_bind at 1, lift. destruct (batches E) as [nb|]; [|done].
  unfold mbind at 1, M_bind at 1.
  pose proof (batch_loop_ok E nb
                {| fs := fs w;
                   trace := trace w ++ [PhotosFound (length (photos_files E))] |})
    as Hok.
  destruct (batch_loop E nb _) as [w2 r]. simpl in Hok. by subst r.
Qed.

(** X12. A run of the pipeline removes no file, and it changes no file other
    than batch artifacts and the two consolidated artifacts. *)
Theorem process_leaves_other_files E d p :
  let d' := fs (run_on (process E) d).1 in
  (is_Some (d !! p) → is_Some (d' !! p)) ∧
  ((∀ i, p ≠ batch_features_path i) → (∀ i, p ≠ batch_ids_path i) →
   p ≠ "features.npy" → p ≠ "photo_ids.csv" → d' !! p = d !! p).
Proof.
  cbv zeta. unfold run_on. rewrite process_cases. cbv zeta. simpl.
  set (w1 := {| fs := d; trace := [PhotosFound (length (photos_files E))] |}).
  destruct (batches E) as [nb|]; [|done]. split.
  - intros Hp. apply merge_keeps_files.
    apply (for_each_invariant (λ w, is_Some (fs w !! p))
             (process_batch E nb) (seq 0 nb)); [|done].
    intros i w _ Hw. split; [by apply process_batch_keeps_files|].
    apply process_batch_ok.
  - intros Hnpy Hcsv Hf Hi. rewrite merge_frame by done.
    apply (for_each_invariant (λ w, fs w !! p = d !! p)
             (process_batch E nb) (seq 0 nb)); [|done].
    intros i w _ Hw. split; [|apply process_batch_ok].
    by rewrite process_batch_frame.
Qed.

Lemma process_leaves_other_files_witness :
  let E := pipeline ["a.jpg"; "b.jpg"; "c.jpg"] ["*.jpg"] 2 [] in
  let d : gmap string content := {[ "notes.txt" := Table ["kept"] ]} in
  let d' := fs (run_on (process E) d).1 in
  d' !! "notes.txt" = d !! "notes.txt".
Proof.
  intros E d.
  apply (process_leaves_other_files E d "notes.txt").
  - intros i H. apply (string_app_inv "notes" _ ".txt" ".npy") in H as [_ H];
      [done|reflexivity].
  - intros i H. apply (string_app_inv "notes" _ ".txt" ".csv") in H as [_ H];
      [done|reflexivity].
  - done.
  - done.
Defined.

(** ** The names of the batch artifacts ([process.py], lines 19-20) *)

Lemma of_uint_bound d : Nat.of_uint d < 10 ^ Unsigned.usize d.
Proof.
  induction d; unfold Nat.of_uint in *; simpl Nat.of_uint_acc;
    change (Nat.tail_mul 10 0) with 0;
    rewrite ?Unsigned.of_uint_acc_spec in *; simpl Unsigned.usize;
    rewrite ?Nat.pow_succ_r';
    try (generalize dependent (10 ^ Unsigned.usize d); intros; lia).
  simpl. lia.
Qed.

Lemma string_ltb_head c d s t :
  Ascii.compare c d = Lt → String.ltb (String c s) (String d t) = true.
Proof. intros H. unfold String.ltb. simpl. by rewrite H. Qed.

Lemma string_ltb_cons c s t :
  String.ltb (String c s) (String c t) = String.ltb s t.
Proof.
  unfold String.ltb. simpl.
  replace (Ascii.compare c c) with Eq; [done|].
  symmetry. unfold Ascii.compare. apply N.compare_refl.
Qed.

Lemma string_ltb_cons_app c s s' t t' :
  String.ltb (String c s +:+ s') (String c t +:+ t') =
  String.ltb (s +:+ s') (t +:+ t').
Proof. apply string_ltb_cons. Qed.

Lemma string_ltb_head_app c d s s' t t' :
  Ascii.compare c d = Lt →
  String.ltb (String c s +:+ s') (String d t +:+ t') = true.
Proof. apply string_ltb_head. Qed.

(** Among digit strings of one length, the smaller number is the smaller
    string. *)
Lemma uint_lex u : ∀ v s t,
  Unsigned.usize u = Unsigned.usize v →
  Nat.of_uint u < Nat.of_uint v →
  String.ltb (NilEmpty.string_of_uint u +:+ s)
             (NilEmpty.string_of_uint v +:+ t) = true.
Proof.
  induction u as [|u IH|u IH|u IH|u IH|u IH|u IH|u IH|u IH|u IH|u IH];
    intros [|v|v|v|v|v|v|v|v|v|v] s t Hsize Hlt;
    try discriminate Hsize; try (by apply Nat.lt_irrefl in Hlt);
    injection Hsize as Hsize;
    simpl;
    try (by apply string_ltb_head_app);
    pose proof (of_uint_bound u) as Hu; pose proof (of_uint_bound v) as Hv;
    unfold Nat.of_uint in Hlt, Hu, Hv |- *; simpl Nat.of_uint_acc in Hlt;
    rewrite ?Unsigned.of_uint_acc_spec in Hu, Hv;
    change (Nat.tail_mul 10 0) with 0 in Hlt;
    rewrite ?Unsigned.of_uint_acc_spec in Hlt; rewrite Hsize in Hlt, Hu;
    try (rewrite string_ltb_cons_app; apply IH; [done|];
         unfold Nat.of_uint; rewrite !Unsigned.of_uint_acc_spec, Hsize;
         generalize dependent (10 ^ Unsigned.usize v); intros; lia);
    exfalso; generalize dependent (10 ^ Unsigned.usize v); intros; lia.
Qed.

Lemma to_uint_unorm i : Decimal.unorm (Nat.to_uint i) = Nat.to_uint i.
Proof. by rewrite <- Unsigned.to_of, Unsigned.of_to. Qed.

Lemma string_of_uint_length d :
  String.length (NilEmpty.string_of_uint d) = Unsigned.usize d.
Proof. induction d; simpl; congruence. Qed.

Lemma decimal_NilEmpty i :
  decimal i = NilEmpty.string_of_uint (Nat.to_uint i).
Proof.
  unfold decimal. pose proof (unorm_nonnil (Nat.to_uint i)) as Hnil.
  rewrite to_uint_unorm in Hnil. by destruct (Nat.to_uint i).
Qed.

(** A number below [10 ^ n] is written with [n] digits at most. *)
Lemma usize_to_uint i n : 0 < n → i < 10 ^ n → Unsigned.usize (Nat.to_uint i) ≤ n.
Proof.
  intros Hn Hi. pose proof (to_uint_unorm i) as Hnorm.
  pose proof (Unsigned.of_to i) as Hval.
  destruct (Nat.to_uint i) as [|u|u|u|u|u|u|u|u|u|u] eqn:Hu;
    [simpl; lia| |..].
  { (* a leading zero: the number is written "0" *)
    rewrite unorm_D0 in Hnorm. unfold Decimal.unorm in Hnorm.
    pose proof (nzhead_nonzero u u) as Hnz.
    destruct (Decimal.nzhead u); try congruence.
    injection Hnorm as <-. simpl. lia. }
  all: apply Nat.nlt_ge; intros Hlong; simpl in Hlong;
    unfold Nat.of_uint in Hval; simpl Nat.of_uint_acc in Hval;
    change (Nat.tail_mul 10 0) with 0 in Hval;
    rewrite Unsigned.of_uint_acc_spec in Hval;
    assert (10 ^ n ≤ 10 ^ Unsigned.usize u)
      by (apply Nat.pow_le_mono_r; lia);
    generalize dependent (10 ^ Unsigned.usize u);
    generalize dependent (10 ^ n); intros; lia.
Qed.

Lemma zeros_iter_D0 k d :
  zeros k +:+ NilEmpty.string_of_uint d =
  NilEmpty.string_of_uint (Nat.iter k Decimal.D0 d).
Proof. induction k as [|k IH]; simpl; [done|]. by rewrite <- IH. Qed.

Lemma usize_iter_D0 k d :
  Unsigned.usize (Nat.iter k Decimal.D0 d) = k + Unsigned.usize d.
Proof. induction k as [|k IH]; simpl; [done|]. by rewrite IH. Qed.

Lemma of_uint_iter_D0 k d : Nat.of_uint (Nat.iter k Decimal.D0 d) = Nat.of_uint d.
Proof.
  by rewrite <- Unsigned.of_uint_norm, unorm_iter_D0, Unsigned.of_uint_norm.
Qed.

(** Below [10 ^ 10] the padded names are ten digits wide, and their
    order as strings is the order of the numbers. *)
Lemma fmt_010d_lt i j s t :
  i < j → j < 10 ^ 10 →
  String.ltb (fmt_010d i +:+ s) (fmt_010d j +:+ t) = true.
Proof.
  intros Hij Hj. unfold fmt_010d.
  rewrite !decimal_NilEmpty, !string_of_uint_length, !zeros_iter_D0.
  assert (Unsigned.usize (Nat.to_uint i) ≤ 10) as Hi10
    by (apply usize_to_uint; lia).
  assert (Unsigned.usize (Nat.to_uint j) ≤ 10) as Hj10
    by (apply usize_to_uint; lia).
  apply uint_lex.
  - rewrite !usize_iter_D0. lia.
  - by rewrite !of_uint_iter_D0, !Unsigned.of_to.
Qed.

(** ** What [glob] picks up ([process.py], lines 37 and 44) *)

Lemma fnmatch_star_cons pattern c name :
  fnmatch (String "*" pattern) (String c name) =
  fnmatch pattern (String c name) || fnmatch (String "*" pattern) name.
Proof. reflexivity. Qed.

Lemma fnmatch_star_app pattern s t :
  fnmatch pattern t = true → fnmatch (String "*" pattern) (s +:+ t) = true.
Proof.
  intros Ht. induction s as [|c s IH].
  - destruct t; simpl in *; by rewrite Ht.
  - change (String c s +:+ t) with (String c (s +:+ t)).
    rewrite fnmatch_star_cons, IH. apply orb_true_r.
Qed.

Lemma fnmatch_no_star_length pattern :
  no_star pattern = true →
  ∀ name, fnmatch pattern name = true →
          String.length name = String.length pattern.
Proof.
  induction pattern as [|c pattern IH]; intros Hns name Hm; simpl in *.
  - by destruct name.
  - apply andb_true_iff in Hns as [Hc Hns]. apply negb_true_iff in Hc.
    rewrite Hc in Hm.
    destruct (Ascii.eqb c "?"); destruct name as [|d name]; try done; simpl.
    + f_equal. by apply IH.
    + apply andb_true_iff in Hm as [_ Hm]. f_equal. by apply IH.
Qed.

Lemma fnmatch_star_short pattern name :
  no_star pattern = true →
  String.length name < String.length pattern →
  fnmatch (String "*" pattern) name = false.
Proof.
  intros Hns. induction name as [|c name IH]; intros Hlen.
  - simpl. apply not_true_is_false. intros Hm.
    apply orb_true_iff in Hm as [Hm|Hm]; [|done].
    apply (fnmatch_no_star_length _ Hns) in Hm. simpl in *. lia.
  - rewrite fnmatch_star_cons, IH by (simpl in Hlen; lia).
    rewrite orb_false_r. apply not_true_is_false. intros Hm.
    apply (fnmatch_no_star_length _ Hns) in Hm. lia.
Qed.

(** A name with another suffix of the same length is not picked up. *)
Lemma fnmatch_star_other_suffix pattern s t :
  no_star pattern = true →
  String.length t = String.length pattern →
  fnmatch pattern t = false →
  fnmatch (String "*" pattern) (s +:+ t) = false.
Proof.
  intros Hns Hlen Ht. induction s as [|c s IH].
  - destruct t as [|d t].
    + simpl in *. by rewrite Ht.
    + change ("" +:+ String d t) with (String d t).
      rewrite fnmatch_star_cons, Ht. simpl orb.
      apply fnmatch_star_short; [done|]. simpl in Hlen. lia.
  - change (String c s +:+ t) with (String c (s +:+ t)).
    rewrite fnmatch_star_cons, IH, orb_false_r.
    apply not_true_is_false. intros Hm.
    apply (fnmatch_no_star_length _ Hns) in Hm.
    simpl in Hm. rewrite string_length_app in Hm. lia.
Qed.

Lemma glob_npy_batch i :
  fnmatch "*.npy" (batch_features_path i) = true ∧
  fnmatch "*.npy" (batch_ids_path i) = false ∧
  fnmatch "*.csv" (batch_ids_path i) = true ∧
  fnmatch "*.csv" (batch_features_path i) = false.
Proof.
  repeat split.
  - by apply fnmatch_star_app.
  - by apply fnmatch_star_other_suffix.
  - by apply fnmatch_star_app.
  - by apply fnmatch_star_other_suffix.
Qed.

(** A listing is the sorted list of the names that exist and match. *)
Lemma listing_NoDup pattern (d : gmap string content) :
  NoDup (listing pattern d).
Proof.
  unfold listing. rewrite sorted_Permutation. unfold matching.
  apply NoDup_ListNoDup, List.NoDup_filter, NoDup_ListNoDup.
  apply NoDup_fst_map_to_list.
Qed.

Lemma listing_unique pattern (d : gmap string content) l :
  Sorted name_le l → NoDup l →
  (∀ p, p ∈ l ↔ is_Some (d !! p) ∧ fnmatch pattern p = true) →
  listing pattern d = l.
Proof.
  intros Hsorted Hnd Hin.
  apply (@Sorted_unique _ name_le name_le_trans name_le_antisym); [|done|].
  - rewrite listing_sort_stable. apply sort_stable_names_Sorted.
  - apply NoDup_Permutation; [apply listing_NoDup|done|].
    intros p. by rewrite listing_elem_of, Hin.
Qed.

(** Names of batches with increasing indices below [10 ^ 10] are sorted. *)
Lemma batch_names_Sorted suffix l :
  StronglySorted lt l → Forall (λ i, i < 10 ^ 10) l →
  Sorted name_le (map (λ i, fmt_010d i +:+ suffix) l).
Proof.
  intros Hl Hlim. apply StronglySorted_Sorted.
  induction Hl as [|i l Hl IH Hi]; simpl; [constructor|].
  apply Forall_cons in Hlim as [_ Hlim]. constructor; [by apply IH|].
  apply Forall_forall. intros p Hp.
  change (map ?f l) with (f <$> l) in Hp.
  apply list_elem_of_fmap in Hp as (j & -> & Hj).
  rewrite Forall_forall in Hi, Hlim.
  apply string_ltb_asym, fmt_010d_lt; [by apply Hi|by apply Hlim].
Qed.

Lemma filter_StronglySorted {A} (R : relation A) (f : A → bool) l :
  StronglySorted R l → StronglySorted R (List.filter f l).
Proof.
  induction 1 as [|x l _ IH Hx]; simpl; [constructor|].
  destruct (f x); [|done]. constructor; [done|].
  rewrite Forall_forall in *. intros y Hy. apply Hx.
  apply list_elem_of_In. apply list_elem_of_In, filter_In in Hy. tauto.
Qed.

Lemma seq_StronglySorted a n : StronglySorted lt (seq a n).
Proof.
  revert a. induction n as [|n IH]; intros a; simpl; constructor; [done|].
  apply Forall_forall. intros i Hi. apply elem_of_seq in Hi. lia.
Qed.

Lemma encoded_spec E nb i : i ∈ encoded E nb ↔ i < nb ∧ batch_ok E i = true.
Proof.
  unfold encoded. rewrite list_elem_of_In, filter_In, <- list_elem_of_In.
  rewrite elem_of_seq. intuition lia.
Qed.

(** ** A run on an empty features directory ([process.py]) *)

Lemma traverse_total {A B} (f : A → result B) l :
  (∀ x, ∃ y, f x = Ok y) → ∃ ys, traverse f l = Ok ys.
Proof.
  intros Hf. induction l as [|x l [ys IH]]; simpl; [by eexists|].
  destruct (Hf x) as [y ->]. rewrite IH. by eexists.
Qed.

Lemma traverse_map_ok {A B C} (f : B → result C) (g : A → B) (h : A → C) l :
  (∀ x, x ∈ l → f (g x) = Ok (h x)) →
  traverse f (map g l) = Ok (map h l).
Proof.
  induction l as [|x l IH]; intros H; simpl; [done|].
  rewrite (H x) by by left. rewrite IH; [done|].
  intros y Hy. apply H. by right.
Qed.

Lemma np_concatenate_width D arrays :
  arrays ≠ [] → Forall (λ a, ncols a = D) arrays →
  np_concatenate arrays =
  Ok {| ncols := D; rows := concat (map rows arrays) |}.
Proof.
  destruct arrays as [|a rest]; [done|]. intros _ Hall.
  apply Forall_cons in Hall as [Ha Hrest]. simpl.
  assert (forallb (λ b, ncols b =? ncols a) rest = true) as ->.
  { apply forallb_forall. intros b Hb. apply Nat.eqb_eq.
    rewrite Forall_forall in Hrest. rewrite Ha. apply Hrest.
    by apply list_elem_of_In. }
  by rewrite Ha.
Qed.

(** One more batch on a directory that earlier batches built. *)
Lemma process_batch_after_batches E nb k w :
  (∀ p, write_fails E p = false) →
  (∀ p, ∃ q, resolve E p = Ok q) →
  after_batches E k (fs w) →
  after_batches E (S k) (fs (process_batch E nb k w).1).
Proof.
  intros Hwrite Hres (Hnpy & Hcsv & Honly).
  assert (fs w !! batch_features_path k = None) as Hnone.
  { rewrite Hnpy. rewrite decide_False; [done|]. lia. }
  rewrite process_batch_cases.
  rewrite bool_decide_eq_false_2 by (rewrite Hnone; by intros [? ?]).
  cbv zeta. rewrite !Hwrite.
  destruct (traverse_total (resolve E) (batch_files E k) Hres) as [ids Hids].
  rewrite Hids.
  destruct (compute_image_features E (batch_files E k)) as [a|e] eqn:Hc; simpl.
  - assert (batch_ok E k = true) as Hok by (unfold batch_ok; by rewrite Hc).
    assert (batch_array E k = a) as Ha by (unfold batch_array; by rewrite Hc).
    assert (batch_ids E k = ids) as Hi by (unfold batch_ids; by rewrite Hids).
    split; [|split].
    + intros i. rewrite lookup_insert_ne by (symmetry; apply batch_paths_differ).
      destruct (decide (i = k)) as [->|Hne].
      * rewrite lookup_insert_eq, decide_True by (split; [lia|done]).
        by rewrite Ha.
      * rewrite lookup_insert_ne
          by (intros H; by apply batch_features_path_inj in H).
        rewrite Hnpy. apply decide_ext. intuition lia.
    + intros i. destruct (decide (i = k)) as [->|Hne].
      * rewrite lookup_insert_eq, decide_True by (split; [lia|done]).
        by rewrite Hi.
      * rewrite lookup_insert_ne
          by (intros H; by apply batch_ids_path_inj in H).
        rewrite lookup_insert_ne by apply batch_paths_differ.
        rewrite Hcsv. apply decide_ext. intuition lia.
    + intros p Hp. apply lookup_insert_is_Some' in Hp as [<-|Hp];
        [by exists k; right|].
      apply lookup_insert_is_Some' in Hp as [<-|Hp]; [by exists k; left|].
      by apply Honly.
  - assert (batch_ok E k = false) as Hok by (unfold batch_ok; by rewrite Hc).
    split; [|split]; [| |done].
    + intros i. rewrite Hnpy. apply decide_ext.
      split; intros [Hlt Hi]; (split; [|done]);
        destruct (decide (i = k)) as [->|]; congruence || lia.
    + intros i. rewrite Hcsv. apply decide_ext.
      split; intros [Hlt Hi]; (split; [|done]);
        destruct (decide (i = k)) as [->|]; congruence || lia.
Qed.

(** The batch loop on an empty directory, with nothing failing but the
    encoder. *)
Lemma batch_loop_fresh E nb w :
  (∀ p, write_fails E p = false) →
  (∀ p, ∃ q, resolve E p = Ok q) →
  fs w = ∅ →
  after_batches E nb (fs (batch_loop E nb w).1).
Proof.
  intros Hwrite Hres Hempty.
  apply (for_each_seq_invariant (λ k w', after_batches E k (fs w'))
           (process_batch E nb) nb 0 w).
  - rewrite Hempty. split; [|split].
    + intros i. rewrite lookup_empty, decide_False; [done|lia].
    + intros i. rewrite lookup_empty, decide_False; [done|lia].
    + intros p [c Hp]. by rewrite lookup_empty in Hp.
  - intros k w' _ Hw'. split; [|apply process_batch_ok].
    by apply process_batch_after_batches.
Qed.

(** What [sorted(glob(...))] yields on such a directory: the artifacts of
    the encoded batches, in the order of the batch indices. *)
Lemma listing_after_batches E nb d :
  nb ≤ 10 ^ 10 →
  after_batches E nb d →
  listing "*.npy" d = map batch_features_path (encoded E nb) ∧
  listing "*.csv" d = map batch_ids_path (encoded E nb).
Proof.
  intros Hlim (Hnpy & Hcsv & Honly).
  assert (StronglySorted lt (encoded E nb)) as Hsorted
    by apply filter_StronglySorted, seq_StronglySorted.
  assert (Forall (λ i, i < 10 ^ 10) (encoded E nb)) as Hbound.
  { apply Forall_forall. intros i Hi. apply encoded_spec in Hi. lia. }
  assert (NoDup (encoded E nb)) as Hnd.
  { apply NoDup_ListNoDup, List.NoDup_filter, NoDup_ListNoDup, NoDup_seq. }
  assert (Inj (=) (=) batch_features_path) as Hinj1
    by (intros i j; apply batch_features_path_inj).
  assert (Inj (=) (=) batch_ids_path) as Hinj2
    by (intros i j; apply batch_ids_path_inj).
  split; apply listing_unique.
  - by apply (batch_names_Sorted ".npy").
  - by apply (NoDup_fmap_2 batch_features_path).
  - intros p. change (map ?f ?l) with (f <$> l). rewrite list_elem_of_fmap.
    split.
    + intros (i & -> & Hi). apply encoded_spec in Hi.
      rewrite Hnpy, decide_True by done. split; [by eexists|].
      apply glob_npy_batch.
    + intros [Hsome Hmatch]. destruct (Honly p Hsome) as [i [-> | ->]].
      * exists i. split; [done|]. apply encoded_spec.
        rewrite Hnpy in Hsome. case_decide; [done|]. by destruct Hsome.
      * destruct (glob_npy_batch i) as (_ & Hno & _). congruence.
  - by apply (batch_names_Sorted ".csv").
  - by apply (NoDup_fmap_2 batch_ids_path).
  - intros p. change (map ?f ?l) with (f <$> l). rewrite list_elem_of_fmap.
    split.
    + intros (i & -> & Hi). apply encoded_spec in Hi.
      rewrite Hcsv, decide_True by done. split; [by eexists|].
      apply glob_npy_batch.
    + intros [Hsome Hmatch]. destruct (Honly p Hsome) as [i [-> | ->]].
      * destruct (glob_npy_batch i) as (_ & _ & _ & Hno). congruence.
      * exists i. split; [done|]. apply encoded_spec.
        rewrite Hcsv in Hsome. case_decide; [done|]. by destruct Hsome.
Qed.

(** The merge step on such a directory. *)
Lemma merge_after_batches E nb D w :
  nb ≤ 10 ^ 10 →
  (∀ p, write_fails E p = false) →
  after_batches E nb (fs w) →
  (∀ i, i ∈ encoded E nb → ncols (batch_array E i) = D) →
  encoded E nb ≠ [] →
  merge E w =
  ({| fs := <["photo_ids.csv" :=
                Table (concat (map (batch_ids E) (encoded E nb)))]>
              (<["features.npy" :=
                   Array {| ncols := D;
                            rows := concat (map (λ i, rows (batch_array E i))
                                              (encoded E nb)) |}]> (fs w));
      trace := trace w |}, Ok tt).
Proof.
  intros Hlim Hwrite Hafter Hwidth Hne.
  destruct (listing_after_batches E nb (fs w) Hlim Hafter) as [Hl1 Hl2].
  destruct Hafter as (Hnpy & Hcsv & _).
  assert (arrays_in (fs w) = Ok (map (batch_array E) (encoded E nb))) as Harr.
  { unfold arrays_in. rewrite Hl1. apply traverse_map_ok.
    intros i Hi. apply encoded_spec in Hi. unfold read_array.
    by rewrite Hnpy, decide_True. }
  assert (tables_in (fs w) = Ok (map (batch_ids E) (encoded E nb))) as Htab.
  { unfold tables_in. rewrite Hl2. apply traverse_map_ok.
    intros i Hi. apply encoded_spec in Hi. unfold read_table.
    by rewrite Hcsv, decide_True. }
  rewrite merge_outcome, Harr, Htab, !Hwrite.
  rewrite (np_concatenate_width D).
  - cbv zeta. rewrite map_map.
    destruct (encoded E nb) as [|i l]; [done|]. done.
  - by destruct (encoded E nb).
  - apply Forall_forall. intros a Ha.
    change (map ?f ?l) with (f <$> l) in Ha.
    apply list_elem_of_fmap in Ha as (i & -> & Hi). by apply Hwidth.
Qed.

(** ** A whole run on an empty directory ([process.py]) *)

Lemma traverse_pointwise {A B} (f : A → result B) (h : A → B) l :
  (∀ x, f x = Ok (h x)) → traverse f l = Ok (map h l).
Proof.
  intros Hf. induction l as [|x l IH]; simpl; [done|]. by rewrite Hf, IH.
Qed.

Lemma concat_map_map {A B C} (f : B → C) (g : A → list B) l :
  concat (map (λ i, map f (g i)) l) = map f (concat (map g l)).
Proof.
  induction l as [|x l IH]; simpl; [done|]. by rewrite IH, map_app.
Qed.

Lemma filter_all {A} (f : A → bool) l :
  (∀ x, x ∈ l → f x = true) → List.filter f l = l.
Proof.
  induction l as [|x l IH]; intros H; simpl; [done|].
  rewrite (H x) by by left. rewrite IH; [done|].
  intros y Hy. apply H. by right.
Qed.

(** The run as the merge of what the batch loop built. *)
Lemma fresh_run_outcome E nb D :
  batches E = Ok nb → nb ≤ 10 ^ 10 →
  (∀ p, write_fails E p = false) →
  (∀ p, ∃ q, resolve E p = Ok q) →
  (∀ i, i ∈ encoded E nb → ncols (batch_array E i) = D) →
  encoded E nb ≠ [] →
  ∃ d tr,
    run_on (process E) ∅ =
    ({| fs := <["photo_ids.csv" :=
                  Table (concat (map (batch_ids E) (encoded E nb)))]>
                (<["features.npy" :=
                     Array {| ncols := D;
                              rows := concat (map (λ i, rows (batch_array E i))
                                                (encoded E nb)) |}]> d);
        trace := tr |}, Ok tt).
Proof.
  intros Hnb Hlim Hwrite Hres Hwidth Hne.
  unfold run_on. rewrite process_cases, Hnb. cbv zeta.
  set (w1 := {| fs := fs _; trace := _ |}).
  eexists _, _. apply merge_after_batches; try done.
  by apply batch_loop_fresh.
Qed.

(** X16. On an empty features directory, with nothing failing but the encoder,
    the run succeeds as soon as one batch is encoded, and the consolidated
    artifacts hold the rows and the identifiers of the encoded batches, in
    the order of the batch indices; the batches on which the encoder
    failed are left out of both. *)
Theorem fresh_run_index E nb D :
  batches E = Ok nb → nb ≤ 10 ^ 10 →
  (∀ p, write_fails E p = false) →
  (∀ p, ∃ q, resolve E p = Ok q) →
  (∀ i, i ∈ encoded E nb → ncols (batch_array E i) = D) →
  encoded E nb ≠ [] →
  let after := run_on (process E) ∅ in
  after.2 = Ok tt ∧
  fs after.1 !! "features.npy" =
    Some (Array {| ncols := D;
                   rows := concat (map (λ i, rows (batch_array E i))
                                     (encoded E nb)) |}) ∧
  fs after.1 !! "photo_ids.csv" =
    Some (Table (concat (map (batch_ids E) (encoded E nb)))).
Proof.
  intros Hnb Hlim Hwrite Hres Hwidth Hne.
  destruct (fresh_run_outcome E nb D) as (d & tr & ->); try done.
  cbv zeta. simpl. split; [done|]. split.
  - by rewrite lookup_insert_ne, lookup_insert_eq.
  - by rewrite lookup_insert_eq.
Qed.

Lemma fresh_run_index_witness :
  let E := pipeline ["a.jpg"; "broken.jpg"; "c.jpg"; "d.jpg"; "e.jpg"]
             ["*.jpg"] 2 [] in
  let after := run_on (process E) ∅ in
  after.2 = Ok tt ∧
  fs after.1 !! "features.npy" =
    Some (Array {| ncols := 2;
                   rows := concat (map (λ i, rows (batch_array E i))
                                     (encoded E 3)) |}) ∧
  fs after.1 !! "photo_ids.csv" =
    Some (Table (concat (map (batch_ids E) (encoded E 3)))).
Proof.
  intros E. apply (fresh_run_index E 3 2).
  - reflexivity.
  - transitivity (10 ^ 1); [simpl; lia|apply Nat.pow_le_mono_r; lia].
  - intros p. apply bool_decide_eq_false_2, not_elem_of_nil.
  - intros p. eexists. reflexivity.
  - intros i Hi. apply encoded_spec in Hi as [_ Hok].
    unfold batch_ok, batch_array in *.
    change (compute_image_features E) with image_encoder in *.
    unfold image_encoder in *. by case_bool_decide.
  - vm_compute. congruence.
Defined.

(** X17. With an encoder that works file by file and never fails, row [k] of
    the consolidated features is the vector of the [k]-th enumerated photo
    and line [k] of the consolidated identifiers is its path. *)
Theorem fresh_run_complete E nb D (enc : string → list float32)
    (res : string → string) :
  batches E = Ok nb → 0 < nb → nb ≤ 10 ^ 10 →
  (∀ p, write_fails E p = false) →
  (∀ p, resolve E p = Ok (res p)) →
  (∀ files, compute_image_features E files =
            Ok {| ncols := D; rows := map enc files |}) →
  let after := run_on (process E) ∅ in
  after.2 = Ok tt ∧
  fs after.1 !! "features.npy" =
    Some (Array {| ncols := D; rows := map enc (photos_files E) |}) ∧
  fs after.1 !! "photo_ids.csv" =
    Some (Table (map res (photos_files E))).
Proof.
  intros Hnb Hpos Hlim Hwrite Hres Henc.
  assert (encoded E nb = seq 0 nb) as Hall.
  { apply filter_all. intros i _. unfold batch_ok. by rewrite Henc. }
  assert (concat (map (batch_files E) (seq 0 nb)) = photos_files E) as Hcover.
  { apply batches_spec in Hnb as (_ & Hle & _).
    unfold batch_files. rewrite (slices_concat (photos_files E)). simpl.
    rewrite drop_0. by apply take_ge. }
  destruct (fresh_run_outcome E nb D) as (d & tr & ->); try done.
  - intros p. eexists. apply Hres.
  - intros i _. unfold batch_array. by rewrite Henc.
  - rewrite Hall. destruct nb; [lia|done].
  - cbv zeta. simpl. rewrite Hall. split; [done|]. split.
    + rewrite lookup_insert_ne, lookup_insert_eq by done. do 3 f_equal.
      rewrite <- Hcover, <- concat_map_map. f_equal. apply map_ext.
      intros i. unfold batch_array. by rewrite Henc.
    + rewrite lookup_insert_eq. do 2 f_equal.
      rewrite <- Hcover, <- concat_map_map. f_equal. apply map_ext.
      intros i. unfold batch_ids.
      by rewrite (traverse_pointwise (resolve E) res).
Qed.

Lemma fresh_run_complete_witness :
  let E := pipeline ["a.jpg"; "b.jpg"; "c.jpg"] ["*.jpg"] 2 [] in
  let E' := {| photos_dir := photos_dir E; ext_list := ext_list E;
               batch_size := batch_size E;
               compute_image_features := λ files,
                 Ok {| ncols := 2; rows := map (λ _, [f32 1; f32 0]) files |};
               resolve := resolve E; write_fails := write_fails E;
               leftover := leftover E |} in
  let after := run_on (process E') ∅ in
  after.2 = Ok tt ∧
  fs after.1 !! "features.npy" =
    Some (Array {| ncols := 2;
                   rows := map (λ _, [f32 1; f32 0]) (photos_files E') |}) ∧
  fs after.1 !! "photo_ids.csv" =
    Some (Table (map (λ p, "/photos/" +:+ p) (photos_files E'))).
Proof.
  intros E E'.
  apply (fresh_run_complete E' 2 2 (λ _, [f32 1; f32 0]) (λ p, "/photos/" +:+ p)).
  - reflexivity.
  - lia.
  - transitivity (10 ^ 1); [simpl; lia|apply Nat.pow_le_mono_r; lia].
  - intros p. apply bool_decide_eq_false_2, not_elem_of_nil.
  - reflexivity.
  - reflexivity.
Defined.

(** The loop over batches on which the encoder fails, on an empty
    directory. *)
Lemma for_each_all_fail E nb n : ∀ a w,
  fs w = ∅ →
  (∀ i, a ≤ i < a + n → batch_ok E i = false) →
  for_each (seq a n) (process_batch E nb) w =
  ({| fs := ∅;
      trace := trace w ++
               flat_map (λ i, [ProcessingBatch (i + 1) nb;
                               Encode i (batch_files E i);
                               ProblemWithBatch i]) (seq a n) |}, Ok tt).
Proof.
  induction n as [|n IH]; intros a w Hempty Hfail; simpl.
  - rewrite app_nil_r. destruct w; simpl in *. by subst.
  - unfold mbind, M_bind. rewrite process_batch_cases. cbv zeta.
    rewrite bool_decide_eq_false_2
      by (rewrite Hempty, lookup_empty; by intros [? ?]).
    pose proof (Hfail a ltac:(lia)) as Ha. unfold batch_ok in Ha.
    destruct (compute_image_features E (batch_files E a)); [done|].
    rewrite IH by (done || intros i Hi; apply Hfail; lia).
    simpl. by rewrite <- !app_assoc.
Qed.

(** X18. When the encoder fails on every batch (or there is no photo at all),
    a run on an empty features directory reports every batch, writes
    nothing, and ends in the error of [np.concatenate] on an empty list. *)
Theorem fresh_run_nothing_encoded E nb :
  batches E = Ok nb →
  (∀ i, i < nb → batch_ok E i = false) →
  run_on (process E) ∅ =
  ({| fs := ∅;
      trace := PhotosFound (length (photos_files E)) ::
               flat_map (λ i, [ProcessingBatch (i + 1) nb;
                               Encode i (batch_files E i);
                               ProblemWithBatch i]) (seq 0 nb) |},
   Raise ValueError).
Proof.
  intros Hnb Hfail. unfold run_on. rewrite process_cases, Hnb. cbv zeta.
  unfold batch_loop. rewrite for_each_all_fail; [|done|intros i Hi; apply Hfail; lia].
  rewrite merge_no_npy; [done|].
  simpl. intros p [c Hp]. by rewrite lookup_empty in Hp.
Qed.

Lemma fresh_run_nothing_encoded_witness :
  let E := pipeline ["broken.jpg"] ["*.jpg"] 2 [] in
  run_on (process E) ∅ =
  ({| fs := ∅;
      trace := PhotosFound (length (photos_files E)) ::
               flat_map (λ i, [ProcessingBatch (i + 1) 1;
                               Encode i (batch_files E i);
                               ProblemWithBatch i]) (seq 0 1) |},
   Raise ValueError).
Proof.
  intros E. apply (fresh_run_nothing_encoded E 1).
  - reflexivity.
  - intros i Hi. assert (i = 0) as -> by lia. reflexivity.
Defined.

(** X13. A batch size of zero: the run prints the number of photos, fails in
    the division of line 13 and touches nothing. *)
Theorem process_zero_batch_size E d :
  batch_size E = 0 →
  run_on (process E) d =
  ({| fs := d; trace := [PhotosFound (length (photos_files E))] |},
   Raise ZeroDivisionError).
Proof.
  intros Hzero. unfold run_on. rewrite process_cases. unfold batches.
  by rewrite Hzero.
Qed.

Lemma process_zero_batch_size_witness :
  let E := pipeline ["a.jpg"] ["*.jpg"] 0 [] in
  run_on (process E) ∅ =
  ({| fs := ∅; trace := [PhotosFound (length (photos_files E))] |},
   Raise ZeroDivisionError).
Proof. intros E. apply (process_zero_batch_size E ∅). reflexivity. Defined.

(** ** From [process.py] to [search.py] *)

(** X19. The session that follows such a run serves the index of the encoded
    batches. *)
Theorem search_after_fresh_run E env nb D stdin :
  batches E = Ok nb → nb ≤ 10 ^ 10 →
  (∀ p, write_fails E p = false) →
  (∀ p, ∃ q, resolve E p = Ok q) →
  (∀ i, i ∈ encoded E nb → ncols (batch_array E i) = D) →
  encoded E nb ≠ [] →
  search env (fs (run_on (process E) ∅).1) stdin =
  session env
    {| photo_features :=
         {| ncols := D;
            rows := concat (map (λ i, rows (batch_array E i))
                              (encoded E nb)) |};
       photo_ids := concat (map (batch_ids E) (encoded E nb)) |} stdin.
Proof.
  intros Hnb Hlim Hwrite Hres Hwidth Hne.
  destruct (fresh_run_outcome E nb D) as (d & tr & ->); try done.
  unfold search, load_index, mbind, M_bind, np_load, read_csv,
    read_array, read_table. simpl.
  by rewrite lookup_insert_ne, !lookup_insert_eq.
Qed.

Lemma search_after_fresh_run_witness :
  let E := pipeline ["a.jpg"; "broken.jpg"; "c.jpg"; "d.jpg"; "e.jpg"]
             ["*.jpg"] 2 [] in
  search (asking_for 1) (fs (run_on (process E) ∅).1) ["cat"; ""] =
  session (asking_for 1)
    {| photo_features :=
         {| ncols := 2;
            rows := concat (map (λ i, rows (batch_array E i))
                              (encoded E 3)) |};
       photo_ids := concat (map (batch_ids E) (encoded E 3)) |} ["cat"; ""].
Proof.
  intros E. apply (search_after_fresh_run E (asking_for 1) 3 2).
  - reflexivity.
  - transitivity (10 ^ 1); [simpl; lia|apply Nat.pow_le_mono_r; lia].
  - intros p. apply bool_decide_eq_false_2, not_elem_of_nil.
  - intros p. eexists. reflexivity.
  - intros i Hi. apply encoded_spec in Hi as [_ Hok].
    unfold batch_ok, batch_array in *.
    change (compute_image_features E) with image_encoder in *.
    unfold image_encoder in *. by case_bool_decide.
  - vm_compute. congruence.
Defined.

(** ** The names of the batch artifacts ([process.py], lines 19-20) *)

(** X15. Below ten digits, the zero-padded names sort as their batch indices
    do: the order in which the merge step reads the artifacts is the order
    of the batches. *)
Theorem batch_names_sort_by_index i j :
  i < j → j < 10 ^ 10 →
  String.ltb (batch_features_path i) (batch_features_path j) = true ∧
  String.ltb (batch_ids_path i) (batch_ids_path j) = true.
Proof. intros Hij Hj. split; by apply fmt_010d_lt. Qed.

Lemma batch_names_sort_by_index_witness :
  String.ltb (batch_features_path 9) (batch_features_path 10) = true ∧
  String.ltb (batch_ids_path 9) (batch_ids_path 10) = true.
Proof.
  apply (batch_names_sort_by_index 9 10); [lia|].
  apply Nat.lt_le_trans with (10 ^ 2); [simpl; lia|].
  apply Nat.pow_le_mono_r; lia.
Defined.

(** ** The calls of the encoder ([process.py], lines 16-33) *)

Lemma encoder_calls_app tr1 tr2 :
  encoder_calls (tr1 ++ tr2) = encoder_calls tr1 ++ encoder_calls tr2.
Proof. apply omap_app. Qed.

(** What one batch adds to the calls of the encoder. *)
Lemma process_batch_encoder_calls E nb i w :
  encoder_calls (trace (process_batch E nb i w).1) =
  encoder_calls (trace w) ++
  (if bool_decide (fs w !! batch_features_path i = None)
   then [(i, batch_files E i)] else []).
Proof.
  rewrite process_batch_cases. cbv zeta.
  destruct (fs w !! batch_features_path i) as [c|] eqn:Hi.
  - rewrite bool_decide_eq_true_2 by by eexists.
    rewrite bool_decide_eq_false_2 by done.
    simpl. by rewrite encoder_calls_app.
  - rewrite bool_decide_eq_false_2 by by intros [? ?].
    rewrite bool_decide_eq_true_2 by done.
    repeat case_match; simpl; by rewrite !encoder_calls_app, <- ?app_assoc.
Qed.

(** X14. In a run, the encoder is called once for each batch whose feature
    artifact is missing at the start, on the files of that batch, in the
    order of the batches, and for nothing else. *)
Theorem process_encoder_calls E d nb :
  batches E = Ok nb →
  encoder_calls (trace (run_on (process E) d).1) =
  map (λ i, (i, batch_files E i))
    (List.filter (λ i, bool_decide (d !! batch_features_path i = None))
       (seq 0 nb)).
Proof.
  intros Hnb. unfold run_on. rewrite process_cases, Hnb. cbv zeta.
  rewrite merge_trace. simpl.
  set (w1 := {| fs := d; trace := _ |}).
  apply (for_each_seq_invariant
           (λ k w, (∀ i, k ≤ i →
                      fs w !! batch_features_path i =
                      d !! batch_features_path i) ∧
                   encoder_calls (trace w) =
                   map (λ i, (i, batch_files E i))
                     (List.filter
                        (λ i, bool_decide (d !! batch_features_path i = None))
                        (seq 0 k)))
           (process_batch E nb) nb 0 w1).
  - done.
  - intros k w _ [Hfs Hcalls]. split; [|apply process_batch_ok]. split.
    + intros i Hi. rewrite process_batch_frame.
      * apply Hfs. lia.
      * intros H. apply batch_features_path_inj in H. lia.
      * apply batch_paths_differ.
    + rewrite process_batch_encoder_calls, Hcalls, (Hfs k) by lia.
      rewrite seq_S, List.filter_app, map_app. simpl.
      by destruct (bool_decide (d !! batch_features_path k = None)).
Qed.

Lemma process_encoder_calls_witness :
  let E := pipeline ["a.jpg"; "b.jpg"; "c.jpg"; "d.jpg"; "e.jpg"]
             ["*.jpg"] 2 [] in
  let d : gmap string content :=
    {[ "0000000001.npy" := Array {| ncols := 2; rows := [[f32 0; f32 1]] |} ]} in
  encoder_calls (trace (run_on (process E) d).1) =
  map (λ i, (i, batch_files E i))
    (List.filter (λ i, bool_decide (d !! batch_features_path i = None))
       (seq 0 3)).
Proof.
  intros E d. apply (process_encoder_calls E d 3). reflexivity.
Defined.

(** ** The end of the input ([search.py], line 13 and 24) *)

(** X7. When the input ends without an empty line, the queries are answered
    and the next [input] raises [EOFError]. *)
Theorem session_ends_with_input E ix qs :
  Forall (λ q, q ≠ "" ∧ (query E ix q).2 = Ok tt) qs →
  query_loop E ix qs = (answers E ix qs ++ [Prompt], Uncaught EOFError).
Proof.
  intros Hqs. rewrite <- (app_nil_r qs) at 1. by rewrite query_loop_app.
Qed.

Lemma session_ends_with_input_witness :
  query_loop (asking_for 2) four_photos ["cat"; "dog"] =
  (answers (asking_for 2) four_photos ["cat"; "dog"] ++ [Prompt],
   Uncaught EOFError).
Proof.
  apply (session_ends_with_input (asking_for 2) four_photos ["cat"; "dog"]).
  repeat constructor; vm_compute; congruence.
Defined.

(** ** More on the merge step *)

Lemma merge_no_csv_witness :
  let E := pipeline [] [] 2 [] in
  let a := {| ncols := 2; rows := [[f32 0; f32 1]] |} in
  let w := {| fs := {[ "0000000000.npy" := Array a ]}; trace := [] |} in
  merge E w =
  ({| fs := <["features.npy" := Array a]> (fs w); trace := trace w |},
   Raise ValueError).
Proof.
  intros E a w. apply (merge_no_csv E w [a] a).
  - vm_compute. reflexivity.
  - reflexivity.
  - reflexivity.
  - intros p [c Hp]. simpl in Hp.
    apply lookup_singleton_Some in Hp as [<- _]. reflexivity.
Defined.

Lemma merge_again_on_batches_witness :
  let E := pipeline [] [] 2 [] in
  let a := {| ncols := 2; rows := [[f32 0; f32 1]] |} in
  let w := {| fs := {[ "0000000000.npy" := Array a;
                       "0000000000.csv" := Table ["/photos/a.jpg"] ]};
              trace := [] |} in
  let once := (merge E w).1 in
  let twice := (merge E once).1 in
  fs once !! "features.npy" = Some (Array a) ∧
  fs once !! "photo_ids.csv" = Some (Table (concat [["/photos/a.jpg"]])) ∧
  fs twice !! "features.npy" =
    Some (Array {| ncols := ncols a; rows := rows a ++ rows a |}) ∧
  fs twice !! "photo_ids.csv" =
    Some (Table (concat [["/photos/a.jpg"]] ++ concat [["/photos/a.jpg"]])).
Proof.
  intros E a w. apply (merge_again_on_batches E w [a] a [["/photos/a.jpg"]]).
  - intros p Hp. simpl in Hp.
    apply lookup_insert_is_Some' in Hp as [<-|Hp]; [by exists 0; left|].
    destruct Hp as [c Hp]. apply lookup_singleton_Some in Hp as [<- _].
    by exists 0; right.
  - vm_compute. reflexivity.
  - reflexivity.
  - vm_compute. reflexivity.
  - done.
  - reflexivity.
  - reflexivity.
Defined.
